(** * libbcachefs/error.h: error reporting and fsck repair negotiation

    A shallow embedding of the macros of [libbcachefs/error.h] and the
    properties their callers rely on.

    The header consists of statement macros.  Each of them is a short
    straight-line program over
    - the filesystem object [struct bch_fs] it is handed (it reads
      [opts.fix_errors] and sets a bit of [flags]),
    - the log ([bch_err], [printf], [printk_ratelimited]),
    - the operator's terminal ([ask_yn]),
    - helpers declared in the header and defined elsewhere
      ([bch2_fatal_error], [bch2_nonfatal_io_error], [BUG]),
    - and, for [__fsck_err], the local variable [ret] and the label
      [fsck_err] of the function the macro is expanded in.

    The macros become functions in a state monad over a [world] that holds
    these, with an [outcome] that records how control leaves the macro. *)

From Stdlib Require Import ZArith NArith String Ascii List Lia.
From stdpp Require Import base option list gmap sets strings.

Local Open Scope Z_scope.
Local Open Scope string_scope.

(** ** Data *)

(** [struct bch_fs *]: a filesystem object is named by its address. *)
Abbreviation fs_ptr := N.

(** [c->opts]: the only option the header reads. *)
Record bch_opts := Bch_opts {
  fix_errors : Z;
}.

(** [struct bch_fs], as far as the header touches it. *)
Record bch_fs := Bch_fs {
  opts : bch_opts;
  flags : Z;
}.

(** [struct bch_dev]: the header reads [ca->fs] and [ca->name] only, so a
    device is passed by value. *)
Record bch_dev := Bch_dev {
  fs : fs_ptr;
  name : string;
}.

(** [struct bio]: the header assigns [bi_error] and reads nothing. *)
Record bio := Bio {
  bi_error : Z;
}.

(** [EIO] of errno-base.h. *)
Definition EIO : Z := 5.

(** The anonymous enum of pass results. *)
Definition BCH_FSCK_OK : Z := 0.
Definition BCH_FSCK_ERRORS_NOT_FIXED : Z := 1.
Definition BCH_FSCK_REPAIR_UNIMPLEMENTED : Z := 2.
Definition BCH_FSCK_REPAIR_IMPOSSIBLE : Z := 3.
Definition BCH_FSCK_UNKNOWN_VERSION : Z := 4.

(** [enum fsck_err_opts]. *)
Definition FSCK_ERR_NO : Z := 0.
Definition FSCK_ERR_YES : Z := 1.
Definition FSCK_ERR_ASK : Z := 2.

(** [#ifdef __KERNEL__] *)
Inductive host := Kernel | Userspace.

(** Who a log line is attributed to: the first argument of [bch_err]. *)
Inductive scope :=
| Fs (c : fs_ptr)
| Dev (ca : bch_dev).

(** What the macros do to the outside, in the order they do it.  A message
    is kept as the format string and the arguments handed to the printing
    function; every argument is taken as already converted to text. *)
Inductive event :=
| Err (sc : scope) (fmt : string) (args : list string)
| Printf (fmt : string) (args : list string)
| Inconsistent_error (c : fs_ptr)
| Fatal_error (c : fs_ptr)
| Nonfatal_io_error (ca : bch_dev).

(** ** Formats *)

(** The printing functions ([printk], [printf]) are not in this header.  Their
    formats are read as C reads them: a conversion is [%], then flags, width,
    precision and length modifiers, then a conversion letter; [%%] prints a
    percent sign; [*] as a width or precision takes an argument of its own.
    The arguments are text already, so a conversion prints its argument as it
    is.  A [%] that no conversion letter follows stands for itself.  The
    kernel's extensions of [%p] are not told apart from [%p]. *)

Fixpoint char_in (ch : ascii) (s : string) : bool :=
  match s with
  | EmptyString => false
  | String d rest => Ascii.eqb ch d || char_in ch rest
  end.

Definition is_conversion (ch : ascii) : bool := char_in ch "diouxXeEfFgGaAcsp".

Definition is_modifier (ch : ascii) : bool := char_in ch "-+ #0123456789.hlLqjzt".

(** What a character of the format does to the arguments. *)
Inductive take := Take_none | Take_print | Take_drop.

(** One character of a format, read with the conversion that is open (its
    text so far) or with none: the text to print, what happens to the next
    argument, and the conversion that is open afterwards. *)
Definition scan (pending : option string) (ch : ascii)
  : string * take * option string :=
  match pending with
  | None =>
      if Ascii.eqb ch "%" then ("", Take_none, Some "%")
      else (String ch "", Take_none, None)
  | Some s =>
      if Ascii.eqb ch "%" then
        if String.eqb s "%" then ("%", Take_none, None)
        else (s, Take_none, Some "%")
      else if is_conversion ch then ("", Take_print, None)
      else if Ascii.eqb ch "*" then ("", Take_drop, Some (s +:+ "*"))
      else if is_modifier ch then ("", Take_none, Some (s +:+ String ch ""))
      else (s +:+ String ch "", Take_none, None)
  end.

(** The text of a format and its arguments, from a given open conversion.  A
    conversion with no argument left prints nothing. *)
Fixpoint render_from (pending : option string) (fmt : string)
    (args : list string) : string :=
  match fmt with
  | EmptyString => match pending with Some s => s | None => "" end
  | String ch rest =>
      match scan pending ch with
      | (lit, Take_none, st) => lit +:+ render_from st rest args
      | (lit, Take_print, st) =>
          lit +:+ hd "" args +:+ render_from st rest (tail args)
      | (lit, Take_drop, st) => lit +:+ render_from st rest (tail args)
      end
  end.

(** The text a printing function makes of a format and its arguments. *)
Definition render (fmt : string) (args : list string) : string :=
  render_from None fmt args.

Fixpoint conversions_from (pending : option string) (fmt : string) : nat :=
  match fmt with
  | EmptyString => O
  | String ch rest =>
      match scan pending ch with
      | (_, Take_none, st) => conversions_from st rest
      | (_, _, st) => S (conversions_from st rest)
      end
  end.

(** The number of arguments a format takes. *)
Definition conversions (fmt : string) : nat := conversions_from None fmt.

(** The conversion that is still open at the end of a format. *)
Fixpoint pending_from (pending : option string) (fmt : string) : option string :=
  match fmt with
  | EmptyString => pending
  | String ch rest => pending_from (scan pending ch).2 rest
  end.

(** A piece of format that ends whatever conversion is open before it
    without completing it: modifiers at most, then a character that is
    neither a modifier nor a conversion letter. *)
Fixpoint closes (fmt : string) : bool :=
  match fmt with
  | EmptyString => true
  | String ch rest =>
      if Ascii.eqb ch "%" then false
      else if is_conversion ch then false
      else if Ascii.eqb ch "*" then false
      else if is_modifier ch then closes rest
      else true
  end.

Record world := World {
  fss : gmap fs_ptr bch_fs;   (* the filesystem objects in memory *)
  trace : list event;         (* log lines and helper calls, oldest first *)
  stdin : list bool;          (* the operator's answers still to be read *)
  ratelimit : list bool;      (* the rate limiter's coming verdicts *)
  fatal : gset fs_ptr;        (* filesystems in the fatal state *)
  ret : Z;                    (* [ret] of the enclosing function *)
}.

Definition set_fss (m : gmap fs_ptr bch_fs) (w : world) : world :=
  World m (trace w) (stdin w) (ratelimit w) (fatal w) (ret w).
Definition set_trace (t : list event) (w : world) : world :=
  World (fss w) t (stdin w) (ratelimit w) (fatal w) (ret w).
Definition set_stdin (i : list bool) (w : world) : world :=
  World (fss w) (trace w) i (ratelimit w) (fatal w) (ret w).
Definition set_ratelimit (r : list bool) (w : world) : world :=
  World (fss w) (trace w) (stdin w) r (fatal w) (ret w).
Definition set_fatal (f : gset fs_ptr) (w : world) : world :=
  World (fss w) (trace w) (stdin w) (ratelimit w) f (ret w).
Definition set_ret (r : Z) (w : world) : world :=
  World (fss w) (trace w) (stdin w) (ratelimit w) (fatal w) r.

(** The log grows by [es]. *)
Definition logged (es : list event) (w : world) : world :=
  set_trace (trace w ++ es) w.

(** ** The monad *)

(** How control leaves a macro. *)
Inductive outcome (A : Type) :=
| Val (a : A)        (* it ran to its end; a statement expression has value [a] *)
| Goto_fsck_err      (* [goto fsck_err] *)
| Terminated         (* [BUG()]: the process is gone *)
| Blocked            (* waiting for an answer that does not come *)
| Fault.             (* a filesystem pointer with no object behind it *)
Arguments Val {A} a.
Arguments Goto_fsck_err {A}.
Arguments Terminated {A}.
Arguments Blocked {A}.
Arguments Fault {A}.

Definition M (A : Type) : Type := world -> outcome A * world.

Definition M_ret {A} (a : A) : M A := fun w => (Val a, w).

Definition M_bind {A B} (m : M A) (k : A -> M B) : M B :=
  fun w =>
    match m w with
    | (Val a, w') => k a w'
    | (Goto_fsck_err, w') => (Goto_fsck_err, w')
    | (Terminated, w') => (Terminated, w')
    | (Blocked, w') => (Blocked, w')
    | (Fault, w') => (Fault, w')
    end.

Declare Scope prog_scope.
Delimit Scope prog_scope with prog.
Notation "x <- m ; k" := (M_bind m (fun x => k))
  (at level 100, m at next level, right associativity) : prog_scope.
Notation "m ;; k" := (M_bind m (fun _ => k))
  (at level 100, right associativity) : prog_scope.
Local Open Scope prog_scope.

(** ** What the header uses and does not define *)

(** Modelled from the spec: the log sink [emit(scope, message)] behind
    [bch_err] (defined in bcachefs.h): one line, never suppressed. *)
Definition bch_err (sc : scope) (fmt : string) (args : list string) : M unit :=
  fun w => (Val tt, logged [Err sc fmt args] w).

(** Modelled from the spec: [printf] of the C library, used for the prompt. *)
Definition printf (fmt : string) (args : list string) : M unit :=
  fun w => (Val tt, logged [Printf fmt args] w).

(** Modelled from the spec: the interactive prompt [askYesNo -> bool]
    (tools-util.h), synchronous: it takes the operator's next answer and
    waits when there is none. *)
Definition ask_yn : M bool :=
  fun w =>
    match stdin w with
    | a :: rest => (Val a, set_stdin rest w)
    | [] => (Blocked, w)
    end.

(** Modelled from the spec: the rate limiter behind [printk_ratelimited]
    (linux/printk.h).  Its algorithm is left open; each call takes the
    limiter's next verdict and logs the line only when the verdict is yes.
    A limiter with no verdict left lets every line through. *)
Definition printk_ratelimited (sc : scope) (fmt : string) (args : list string)
  : M unit :=
  fun w =>
    match ratelimit w with
    | false :: rest => (Val tt, set_ratelimit rest w)
    | true :: rest => (Val tt, logged [Err sc fmt args] (set_ratelimit rest w))
    | [] => (Val tt, logged [Err sc fmt args] w)
    end.

(** Modelled from the spec: the termination primitive [BUG()]; never returns. *)
Definition BUG {A} : M A := fun w => (Terminated, w).

(** Modelled from the spec: [bch2_inconsistent_error] is declared here and
    defined in error.c; the call is recorded. *)
Definition bch2_inconsistent_error (c : fs_ptr) : M unit :=
  fun w => (Val tt, logged [Inconsistent_error c] w).

(** Modelled from the spec: [bch2_fatal_error] (declared here, defined in
    error.c) puts the filesystem into the fatal state; idempotent. *)
Definition bch2_fatal_error (c : fs_ptr) : M unit :=
  fun w => (Val tt, set_fatal ({[c]} ∪ fatal w) (logged [Fatal_error c] w)).

(** Modelled from the spec: [bch2_nonfatal_io_error] (declared here, defined
    in error.c) does the error handling for the device without logging a
    message; the call is recorded. *)
Definition bch2_nonfatal_io_error (ca : bch_dev) : M unit :=
  fun w => (Val tt, logged [Nonfatal_io_error ca] w).

(** [(c)->opts.fix_errors] *)
Definition read_fix_errors (c : fs_ptr) : M Z :=
  fun w =>
    match fss w !! c with
    | Some o => (Val (fix_errors (opts o)), w)
    | None => (Fault, w)
    end.

(** [flags |= 1UL << nr] *)
Definition fs_set_bit (nr : N) (o : bch_fs) : bch_fs :=
  Bch_fs (opts o) (Z.lor (flags o) (Z.shiftl 1 (Z.of_N nr))).

(** Modelled from the spec: [set_bit(nr, &(c)->flags)] (linux/bitops.h), the
    state store's idempotent flag setter. *)
Definition set_bit (nr : N) (c : fs_ptr) : M unit :=
  fun w =>
    match fss w !! c with
    | Some o => (Val tt, set_fss (<[c := fs_set_bit nr o]> (fss w)) w)
    | None => (Fault, w)
    end.

(** [ret = v;] in the enclosing function. *)
Definition assign_ret (v : Z) : M unit := fun w => (Val tt, set_ret v w).

(** [goto fsck_err;] *)
Definition goto_fsck_err {A} : M A := fun w => (Goto_fsck_err, w).

(** Reading a flag back: [test_bit(nr, &fs->flags)]. *)
Definition test_bit (nr : N) (o : bch_fs) : bool := Z.testbit (flags o) (Z.of_N nr).

Section error_h.

(** The bit number of [BCH_FS_FSCK_FIXED_ERRORS] in [c->flags]; the enum that
    fixes it is in bcachefs.h. *)
Variable BCH_FS_FSCK_FIXED_ERRORS : N.

(** ** Logic bugs *)

Definition bch2_fs_bug (c : fs_ptr) (fmt : string) (args : list string) : M unit :=
  bch_err (Fs c) fmt args;;
  BUG.

Definition bch2_fs_bug_on (cond : bool) (c : fs_ptr) (fmt : string)
    (args : list string) : M unit :=
  if cond then bch2_fs_bug c fmt args else M_ret tt.

(** ** Inconsistency errors *)

Definition bch2_fs_inconsistent (c : fs_ptr) (fmt : string) (args : list string)
  : M unit :=
  bch_err (Fs c) fmt args;;
  bch2_inconsistent_error c.

Definition bch2_fs_inconsistent_on (cond : bool) (c : fs_ptr) (fmt : string)
    (args : list string) : M bool :=
  let _ret := cond in
  (if _ret then bch2_fs_inconsistent c fmt args else M_ret tt);;
  M_ret _ret.

Definition bch2_dev_inconsistent (ca : bch_dev) (fmt : string) (args : list string)
  : M unit :=
  bch_err (Dev ca) fmt args;;
  bch2_inconsistent_error (fs ca).

Definition bch2_dev_inconsistent_on (cond : bool) (ca : bch_dev) (fmt : string)
    (args : list string) : M bool :=
  let _ret := cond in
  (if _ret then bch2_dev_inconsistent ca fmt args else M_ret tt);;
  M_ret _ret.

(** ** Fsck errors *)

(** The kernel's [__fsck_err_should_fix]: the option is read as a [bool]. *)
Definition __fsck_err_should_fix_kernel (c : fs_ptr) (msg : string)
    (args : list string) : M bool :=
  v <- read_fix_errors c;
  let _fix := negb (Z.eqb v 0) in
  bch_err (Fs c) (msg +:+ ", %sfixing") (args ++ [if _fix then "" else "not "]);;
  M_ret _fix.

(** The tools' [__fsck_err_should_fix]: a [switch] over the three policies. *)
Definition __fsck_err_should_fix_userspace (c : fs_ptr) (msg : string)
    (args : list string) : M bool :=
  v <- read_fix_errors c;
  match v with
  | 2 (* FSCK_ERR_ASK *) =>
      printf (msg +:+ ": fix?") args;;
      ask_yn
  | 1 (* FSCK_ERR_YES *) =>
      bch_err (Fs c) (msg +:+ ", fixing") args;;
      M_ret true
  | 0 (* FSCK_ERR_NO *) =>
      bch_err (Fs c) msg args;;
      M_ret false
  | _ => M_ret false
  end.

Definition __fsck_err_should_fix (h : host) : fs_ptr -> string -> list string -> M bool :=
  match h with
  | Kernel => __fsck_err_should_fix_kernel
  | Userspace => __fsck_err_should_fix_userspace
  end.

(** The first statement of [__fsck_err]: the [if (_can_fix) ... else ...]
    that gives [_fix] its value, the outcome of the negotiation. *)
Definition fsck_err_outcome (h : host) (c : fs_ptr) (_can_fix : bool)
    (_nofix_msg msg : string) (args : list string) : M bool :=
  if _can_fix then __fsck_err_should_fix h c msg args
  else
    (bch_err (Fs c) (msg +:+ " (" +:+ _nofix_msg +:+ ")") args;;
     M_ret false).

Definition __fsck_err (h : host) (c : fs_ptr) (_can_fix _can_ignore : bool)
    (_nofix_msg msg : string) (args : list string) : M bool :=
  _fix <- fsck_err_outcome h c _can_fix _nofix_msg msg args;
  (if _fix then set_bit BCH_FS_FSCK_FIXED_ERRORS c else M_ret tt);;
  (if negb _fix && negb _can_ignore then
     (bch_err (Fs c) "Unable to continue, halting" [];;
      assign_ret BCH_FSCK_ERRORS_NOT_FIXED;;
      goto_fsck_err)
   else M_ret tt);;
  M_ret _fix.

Definition __fsck_err_on (cond : bool) (h : host) (c : fs_ptr)
    (_can_fix _can_ignore : bool) (_nofix_msg msg : string) (args : list string)
  : M bool :=
  if cond then __fsck_err h c _can_fix _can_ignore _nofix_msg msg args
  else M_ret false.

Definition unfixable_fsck_err_on (cond : bool) (h : host) (c : fs_ptr)
    (msg : string) (args : list string) : M bool :=
  __fsck_err_on cond h c false true "repair unimplemented" msg args.

Definition need_fsck_err_on (cond : bool) (h : host) (c : fs_ptr)
    (msg : string) (args : list string) : M bool :=
  __fsck_err_on cond h c false true "run fsck to correct" msg args.

Definition mustfix_fsck_err (h : host) (c : fs_ptr)
    (msg : string) (args : list string) : M bool :=
  __fsck_err h c true false "not fixing" msg args.

Definition mustfix_fsck_err_on (cond : bool) (h : host) (c : fs_ptr)
    (msg : string) (args : list string) : M bool :=
  __fsck_err_on cond h c true false "not fixing" msg args.

Definition fsck_err_on (cond : bool) (h : host) (c : fs_ptr)
    (msg : string) (args : list string) : M bool :=
  __fsck_err_on cond h c true true "not fixing" msg args.

(** ** Fatal errors *)

Definition bch2_fs_fatal_error (c : fs_ptr) (fmt : string) (args : list string)
  : M unit :=
  bch_err (Fs c) fmt args;;
  bch2_fatal_error c.

Definition bch2_fs_fatal_err_on (cond : bool) (c : fs_ptr) (fmt : string)
    (args : list string) : M bool :=
  let _ret := cond in
  (if _ret then bch2_fs_fatal_error c fmt args else M_ret tt);;
  M_ret _ret.

(** The body names [c], which is not an argument of the macro: it is
    whatever [c] is in scope where the macro is expanded. *)
Definition bch2_dev_fatal_error (c : fs_ptr) (ca : bch_dev) (fmt : string)
    (args : list string) : M unit :=
  bch_err (Dev ca) fmt args;;
  bch2_fatal_error c.

Definition bch2_dev_fatal_io_error (ca : bch_dev) (fmt : string)
    (args : list string) : M unit :=
  printk_ratelimited (Fs (fs ca)) ("fatal IO error on %s for " +:+ fmt)
    (name ca :: args);;
  bch2_fatal_error (fs ca).

Definition bch2_dev_fatal_io_err_on (cond : bool) (ca : bch_dev) (fmt : string)
    (args : list string) : M bool :=
  let _ret := cond in
  (if _ret then bch2_dev_fatal_io_error ca fmt args else M_ret tt);;
  M_ret _ret.

(** ** Nonfatal IO errors *)

Definition bch2_dev_nonfatal_io_error (ca : bch_dev) (fmt : string)
    (args : list string) : M unit :=
  printk_ratelimited (Fs (fs ca)) ("IO error on %s for " +:+ fmt)
    (name ca :: args);;
  bch2_nonfatal_io_error ca.

Definition bch2_dev_nonfatal_io_err_on (cond : bool) (ca : bch_dev) (fmt : string)
    (args : list string) : M bool :=
  let _ret := cond in
  (if _ret then bch2_dev_nonfatal_io_error ca fmt args else M_ret tt);;
  M_ret _ret.


(** ** The last two macros ("kill?") *)

Definition __bcache_io_error (c : fs_ptr) (fmt : string) (args : list string)
  : M unit :=
  printk_ratelimited (Fs c) ("IO error: " +:+ fmt) args.

(** [(bio)->bi_error = -EIO]: the [bio] comes back with the field assigned. *)
Definition bcache_io_error (c : fs_ptr) (b : bio) (fmt : string)
    (args : list string) : M bio :=
  __bcache_io_error c fmt args;;
  M_ret (Bio (- EIO)).

(** ** The enclosing function *)

(** [__fsck_err] can only be expanded in a function that declares [ret] and
    ends in [fsck_err: return ret;].  [body] is what stands before the label;
    the label is reached by falling off the end of [body] or by the jump. *)
Definition fsck_err_label {A} (body : M A) : M Z :=
  fun w =>
    match body w with
    | (Val _, w') => (Val (ret w'), w')
    | (Goto_fsck_err, w') => (Val (ret w'), w')
    | (Terminated, w') => (Terminated, w')
    | (Blocked, w') => (Blocked, w')
    | (Fault, w') => (Fault, w')
    end.

(** ** The words of the specification *)

(** One line with the text [text] is logged for [sc]; nothing else changes. *)
Definition emits (sc : scope) (text : string) (w w' : world) : Prop :=
  exists fmt args, w' = logged [Err sc fmt args] w /\ render fmt args = text.

(** The text [text] is printed as a prompt; nothing else changes. *)
Definition prompts (text : string) (w w' : world) : Prop :=
  exists fmt args, w' = logged [Printf fmt args] w /\ render fmt args = text.

(** The policy branch as the specification has it, for a negotiation that
    starts in [w], has the message [text] and ends as [r]. *)
Definition policy_branch_spec (policy : Z) (c : fs_ptr) (text : string)
    (w : world) (r : outcome bool * world) : Prop :=
  (policy = FSCK_ERR_YES ->
     r.1 = Val true /\ emits (Fs c) (text +:+ ", fixing") w r.2)
  /\ (policy = FSCK_ERR_NO ->
     r.1 = Val false /\ emits (Fs c) text w r.2)
  /\ (policy = FSCK_ERR_ASK ->
     exists w1, prompts (text +:+ ": fix?") w w1 /\
       match stdin w with
       | a :: rest => r = (Val a, set_stdin rest w1)
       | [] => r = (Blocked, w1)
       end).

(** What the kernel build does instead: the policy is a truth value. *)
Definition kernel_policy_branch (policy : Z) (c : fs_ptr) (text : string)
    (w : world) (r : outcome bool * world) : Prop :=
  (policy <> 0 ->
     r.1 = Val true /\ emits (Fs c) (text +:+ ", fixing") w r.2)
  /\ (policy = 0 ->
     r.1 = Val false /\ emits (Fs c) (text +:+ ", not fixing") w r.2).

(** The four negotiation modes of the specification and its table. *)
Inductive mode :=
| Unfixable_but_tolerable
| Deferred_to_next_run
| Mandatory_fix
| Best_effort_fix.

Definition mode_fixable (m : mode) : bool :=
  match m with
  | Unfixable_but_tolerable | Deferred_to_next_run => false
  | Mandatory_fix | Best_effort_fix => true
  end.

Definition mode_ignorable (m : mode) : bool :=
  match m with
  | Unfixable_but_tolerable | Deferred_to_next_run | Best_effort_fix => true
  | Mandatory_fix => false
  end.

Definition mode_reason (m : mode) : string :=
  match m with
  | Unfixable_but_tolerable => "repair unimplemented"
  | Deferred_to_next_run => "run fsck to correct"
  | Mandatory_fix | Best_effort_fix => "not fixing"
  end.

(** The macro that implements a mode. *)
Definition mode_macro (m : mode)
  : bool -> host -> fs_ptr -> string -> list string -> M bool :=
  match m with
  | Unfixable_but_tolerable => unfixable_fsck_err_on
  | Deferred_to_next_run => need_fsck_err_on
  | Mandatory_fix => mustfix_fsck_err_on
  | Best_effort_fix => fsck_err_on
  end.

(** How a negotiation of mode [m] leaves under the policies that need no
    operator, by the algorithm of the specification. *)
Definition mode_behaviour (m : mode) (always : bool) : outcome bool :=
  if mode_fixable m && always then Val true
  else if mode_ignorable m then Val false
  else Goto_fsck_err.

(** A fatal error of a device as the specification has it: the message is
    logged, then the filesystem that owns the device goes into the fatal
    state. *)
Definition reports_fatal (ca : bch_dev) (w : world) (r : outcome unit * world)
  : Prop :=
  r.1 = Val tt
  /\ (exists sc fmt args,
        trace r.2 = (trace w ++ [Err sc fmt args; Fatal_error (fs ca)])%list)
  /\ fs ca ∈ fatal r.2.

(** Whether the rate limiter lets the next line through. *)
Definition next_verdict (w : world) : bool :=
  match ratelimit w with
  | false :: _ => false
  | _ => true
  end.

(** ** Repeated reports *)

(** The same device reported once for every entry of [reports]. *)
Fixpoint report_all (ca : bch_dev) (reports : list (string * list string))
  : M unit :=
  match reports with
  | [] => M_ret tt
  | (fmt, args) :: rest =>
      bch2_dev_nonfatal_io_error ca fmt args;;
      report_all ca rest
  end.

Definition bch_dev_eqb (a b : bch_dev) : bool :=
  N.eqb (fs a) (fs b) && String.eqb (name a) (name b).

(** The calls of [bch2_nonfatal_io_error] for [ca] in a trace. *)
Fixpoint updates (ca : bch_dev) (t : list event) : nat :=
  match t with
  | [] => O
  | Nonfatal_io_error ca' :: t' =>
      if bch_dev_eqb ca ca' then S (updates ca t') else updates ca t'
  | _ :: t' => updates ca t'
  end.

(** The log lines in a trace. *)
Fixpoint emissions (t : list event) : nat :=
  match t with
  | [] => O
  | Err _ _ _ :: t' => S (emissions t')
  | _ :: t' => emissions t'
  end.

(** The lines the rate limiter lets through, of [n] calls. *)
Fixpoint let_through (n : nat) (verdicts : list bool) : nat :=
  match n with
  | O => O
  | S n' =>
      match verdicts with
      | [] => S n'
      | true :: rest => S (let_through n' rest)
      | false :: rest => let_through n' rest
      end
  end.


(** ** Negotiations in sequence *)

(** One use of a named macro in the body of a checking function. *)
Record check := Check {
  chk_mode : mode;
  chk_cond : bool;
  chk_msg : string;
  chk_args : list string;
}.

(** A body that is one negotiation after the other, on the filesystem [c]. *)
Fixpoint run_checks (h : host) (c : fs_ptr) (cs : list check) : M unit :=
  match cs with
  | [] => M_ret tt
  | k :: rest =>
      mode_macro (chk_mode k) (chk_cond k) h c (chk_msg k) (chk_args k);;
      run_checks h c rest
  end.

(** The check found its condition and a repair exists for it. *)
Definition fixable_hit (k : check) : bool :=
  chk_cond k && mode_fixable (chk_mode k).

(** The check found its condition and may not be skipped. *)
Definition mandatory_hit (k : check) : bool :=
  chk_cond k && negb (mode_ignorable (chk_mode k)).

(** The checks that run under the policy no: all up to the first one that
    may not be skipped, that one included. *)
Fixpoint until_mandatory (cs : list check) : list check :=
  match cs with
  | [] => []
  | k :: rest => if mandatory_hit k then [k] else k :: until_mandatory rest
  end.

(** ** Reading outcomes and traces *)

Definition is_fixed (o : outcome bool) : bool :=
  match o with
  | Val true => true
  | _ => false
  end.

Definition is_goto {A} (o : outcome A) : bool :=
  match o with
  | Goto_fsck_err => true
  | _ => false
  end.

(** The prompts in a trace. *)
Fixpoint prompts_count (t : list event) : nat :=
  match t with
  | [] => O
  | Printf _ _ :: t' => S (prompts_count t')
  | _ :: t' => prompts_count t'
  end.

(** The log as it reads: every line with its text. *)
Fixpoint rendered (t : list event) : list (scope * string) :=
  match t with
  | [] => []
  | Err sc fmt args :: t' => (sc, render fmt args) :: rendered t'
  | _ :: t' => rendered t'
  end.

(** What a sequence of negotiations keeps of the world it starts in: the log
    only grows, answers are only taken from the front, and a filesystem
    object keeps its options and every flag that is set. *)
Definition extends (w w' : world) : Prop :=
  (exists es, trace w' = (trace w ++ es)%list)
  /\ (exists taken, stdin w = (taken ++ stdin w')%list)
  /\ fatal w' = fatal w
  /\ ratelimit w' = ratelimit w
  /\ (forall c o, fss w !! c = Some o ->
        exists o', fss w' !! c = Some o' /\ opts o' = opts o
                   /\ forall n, test_bit n o = true -> test_bit n o' = true)
  /\ (forall c, fss w !! c = None -> fss w' !! c = None).

(** ** Sample worlds *)

(** A filesystem at address 1 whose policy is [policy], no log yet, the
    operator's answers [answers] and the limiter's verdicts [verdicts]. *)
Definition one_fs (policy : Z) (answers verdicts : list bool) : world :=
  World {[1%N := Bch_fs (Bch_opts policy) 0]} [] answers verdicts ∅ BCH_FSCK_OK.

Definition sda : bch_dev := Bch_dev 1 "sda".

(** The bit [BCH_FS_FSCK_FIXED_ERRORS] is taken to be bit 7 in the instances. *)
Definition fixed_errors_bit : N := 7.

(** A body of four checks that all find their condition; the third one may
    not be skipped. *)
Definition sample_checks : list check :=
  [ Check Best_effort_fix true "bad dirent" [];
    Check Unfixable_but_tolerable true "bad extent" [];
    Check Mandatory_fix true "bad superblock" [];
    Check Best_effort_fix true "bad inode" [] ].

(** A body of checks that may all be skipped; two of them find a condition
    that has a repair. *)
Definition ignorable_checks : list check :=
  [ Check Best_effort_fix true "bad dirent" [];
    Check Deferred_to_next_run true "bad extent" [];
    Check Best_effort_fix false "bad link count" [];
    Check Best_effort_fix true "bad inode" [] ].

(** ** Tactics *)

(** The cases the first statement of [__fsck_err] distinguishes: whether the
    filesystem is there, its policy, and whether an answer is waiting. *)
Ltac outcome_cases w c :=
  destruct (fss w !! c) as [?o|] eqn:?; simpl;
  try match goal with
    | |- context [match fix_errors (opts ?o) with _ => _ end] =>
        destruct (fix_errors (opts o)) as [|[[?|?|]|[?|?|]|]|] eqn:?; simpl
    end;
  try destruct (stdin w) eqn:?; simpl.

Ltac run_prog :=
  unfold M_bind, M_ret, bch_err, printf, ask_yn, BUG, assign_ret, goto_fsck_err,
    bch2_fatal_error, bch2_nonfatal_io_error, bch2_inconsistent_error.

(** ** Formats: lemmas *)

Lemma append_cons (ch : ascii) (s t : string) : String ch s +:+ t = String ch (s +:+ t).
Proof. reflexivity. Qed.

Lemma string_app_assoc (a b c : string) : (a +:+ b) +:+ c = a +:+ (b +:+ c).
Proof.
  induction a as [|x a IH]; [reflexivity|].
  rewrite !append_cons. f_equal. exact IH.
Qed.

Lemma string_app_nil_r (a : string) : a +:+ "" = a.
Proof. induction a as [|x a IH]; [reflexivity|]. rewrite append_cons, IH. reflexivity. Qed.

Lemma render_from_cons (pending : option string) (ch : ascii) (rest : string)
    (args : list string) :
  render_from pending (String ch rest) args
  = match scan pending ch with
    | (lit, Take_none, st) => lit +:+ render_from st rest args
    | (lit, Take_print, st) =>
        lit +:+ hd "" args +:+ render_from st rest (tail args)
    | (lit, Take_drop, st) => lit +:+ render_from st rest (tail args)
    end.
Proof. reflexivity. Qed.

Lemma conversions_from_cons (pending : option string) (ch : ascii)
    (rest : string) :
  conversions_from pending (String ch rest)
  = match scan pending ch with
    | (_, Take_none, st) => conversions_from st rest
    | (_, _, st) => S (conversions_from st rest)
    end.
Proof. reflexivity. Qed.

(** An open conversion that the format does not complete is printed as it
    stands. *)
Lemma render_from_flush (s f : string) (a : list string) :
  closes f = true ->
  render_from (Some s) f a = s +:+ render_from None f a.
Proof.
  revert s. induction f as [|d f IH]; intros s Hf.
  - simpl. symmetry. apply string_app_nil_r.
  - rewrite !render_from_cons. cbn [closes] in Hf. unfold scan.
    destruct (Ascii.eqb d "%"); [discriminate|].
    destruct (is_conversion d); [discriminate|].
    destruct (Ascii.eqb d "*"); [discriminate|].
    destruct (is_modifier d).
    + rewrite (IH _ Hf). change ("" +:+ ?x) with x.
      rewrite !string_app_assoc. reflexivity.
    + rewrite !string_app_assoc. reflexivity.
Qed.

(** A format made of two pieces prints as the pieces do, the second one on
    the arguments the first one leaves, when the first piece leaves no
    conversion open or the second one closes it. *)
Lemma render_from_app (pending : option string) (p f : string) (a : list string) :
  pending_from pending p = None \/ closes f = true ->
  render_from pending (p +:+ f) a
  = render_from pending p a
    +:+ render_from None f (skipn (conversions_from pending p) a).
Proof.
  revert pending a. induction p as [|ch p IH]; intros pending a Hpf.
  - change ("" +:+ f) with f. cbn [conversions_from skipn render_from pending_from] in *.
    destruct pending as [s|]; [|reflexivity].
    destruct Hpf as [Hp|Hf]; [discriminate|]. apply render_from_flush, Hf.
  - rewrite append_cons, !render_from_cons, conversions_from_cons.
    cbn [pending_from] in Hpf.
    destruct (scan pending ch) as [[lit tk] st]. simpl in Hpf.
    destruct tk.
    + rewrite (IH st a Hpf), !string_app_assoc. reflexivity.
    + rewrite (IH st (tail a) Hpf), !string_app_assoc.
      destruct a; [rewrite !skipn_nil|]; reflexivity.
    + rewrite (IH st (tail a) Hpf), !string_app_assoc.
      destruct a; [rewrite !skipn_nil|]; reflexivity.
Qed.

Lemma render_from_more_args (pending : option string) (m : string) (a b : list string) :
  (conversions_from pending m <= length a)%nat ->
  render_from pending m (a ++ b) = render_from pending m a.
Proof.
  revert pending a. induction m as [|ch m IH]; intros pending a Hm.
  - reflexivity.
  - rewrite conversions_from_cons in Hm. rewrite !render_from_cons.
    destruct (scan pending ch) as [[lit tk] st]. destruct tk.
    + rewrite IH by exact Hm. reflexivity.
    + destruct a as [|x a']; simpl in Hm; [lia|].
      simpl. rewrite IH by lia. reflexivity.
    + destruct a as [|x a']; simpl in Hm; [lia|].
      simpl. rewrite IH by lia. reflexivity.
Qed.

(** A piece without conversions that is put behind a message prints as it is. *)
Lemma render_suffix (msg f : string) (a : list string) :
  closes f = true -> (forall b, render f b = f) ->
  render (msg +:+ f) a = render msg a +:+ f.
Proof.
  intros Hc Hf. unfold render. rewrite render_from_app by (right; exact Hc).
  f_equal. apply Hf.
Qed.

(** The kernel's [", %sfixing"] behind a message, with its extra argument. *)
Lemma render_kernel (msg : string) (a : list string) (x : string) :
  conversions msg = length a ->
  render (msg +:+ ", %sfixing") (a ++ [x]) = render msg a +:+ ", " +:+ x +:+ "fixing".
Proof.
  intros Hm. unfold render, conversions in *.
  rewrite render_from_app by (right; reflexivity).
  rewrite render_from_more_args by lia.
  rewrite Hm, drop_app_length. reflexivity.
Qed.

(** ** The negotiation: lemmas *)

Lemma should_fix_kernel_run (c : fs_ptr) (o : bch_fs) msg args (w : world) :
  fss w !! c = Some o ->
  __fsck_err_should_fix_kernel c msg args w
  = (Val (negb (Z.eqb (fix_errors (opts o)) 0)),
     logged [Err (Fs c) (msg +:+ ", %sfixing")
               (args ++ [if negb (Z.eqb (fix_errors (opts o)) 0) then "" else "not "])] w).
Proof.
  intros Hc. unfold __fsck_err_should_fix_kernel, read_fix_errors. run_prog.
  rewrite Hc. reflexivity.
Qed.

Lemma should_fix_userspace_yes (c : fs_ptr) (o : bch_fs) msg args (w : world) :
  fss w !! c = Some o -> fix_errors (opts o) = FSCK_ERR_YES ->
  __fsck_err_should_fix_userspace c msg args w
  = (Val true, logged [Err (Fs c) (msg +:+ ", fixing") args] w).
Proof.
  intros Hc Hp. unfold __fsck_err_should_fix_userspace, read_fix_errors. run_prog.
  rewrite Hc, Hp. reflexivity.
Qed.

Lemma should_fix_userspace_no (c : fs_ptr) (o : bch_fs) msg args (w : world) :
  fss w !! c = Some o -> fix_errors (opts o) = FSCK_ERR_NO ->
  __fsck_err_should_fix_userspace c msg args w
  = (Val false, logged [Err (Fs c) msg args] w).
Proof.
  intros Hc Hp. unfold __fsck_err_should_fix_userspace, read_fix_errors. run_prog.
  rewrite Hc, Hp. reflexivity.
Qed.

Lemma should_fix_userspace_ask (c : fs_ptr) (o : bch_fs) msg args (w : world) :
  fss w !! c = Some o -> fix_errors (opts o) = FSCK_ERR_ASK ->
  __fsck_err_should_fix_userspace c msg args w
  = match stdin w with
    | a :: rest =>
        (Val a, set_stdin rest (logged [Printf (msg +:+ ": fix?") args] w))
    | [] => (Blocked, logged [Printf (msg +:+ ": fix?") args] w)
    end.
Proof.
  intros Hc Hp. unfold __fsck_err_should_fix_userspace, read_fix_errors. run_prog.
  rewrite Hc, Hp. simpl. destruct (stdin w); reflexivity.
Qed.

(** The first statement of [__fsck_err] touches the log and the terminal and
    nothing else. *)
Lemma fsck_err_outcome_frame (h : host) (c : fs_ptr) (cf : bool) nofix msg args
    (w w1 : world) (o : outcome bool) :
  fsck_err_outcome h c cf nofix msg args w = (o, w1) ->
  fss w1 = fss w /\ ret w1 = ret w /\ fatal w1 = fatal w
  /\ ratelimit w1 = ratelimit w.
Proof.
  unfold fsck_err_outcome, __fsck_err_should_fix, __fsck_err_should_fix_kernel,
    __fsck_err_should_fix_userspace, read_fix_errors.
  run_prog.
  destruct cf; [destruct h|]; outcome_cases w c; intros; simplify_eq; done.
Qed.

(** It says "fix" only for a fixable error on a filesystem that is there. *)
Lemma fsck_err_outcome_fixed (h : host) (c : fs_ptr) (cf : bool) nofix msg args
    (w w1 : world) :
  fsck_err_outcome h c cf nofix msg args w = (Val true, w1) ->
  cf = true /\ is_Some (fss w !! c).
Proof.
  unfold fsck_err_outcome, __fsck_err_should_fix, __fsck_err_should_fix_kernel,
    __fsck_err_should_fix_userspace, read_fix_errors.
  run_prog.
  destruct cf; [destruct h|]; outcome_cases w c; intros; simplify_eq; eauto.
Qed.

(** [__fsck_err], by the value its first statement gives [_fix]. *)
Lemma fsck_err_run (h : host) (c : fs_ptr) (cf ci : bool) nofix msg args (w : world) :
  __fsck_err h c cf ci nofix msg args w
  = match fsck_err_outcome h c cf nofix msg args w with
    | (Val true, w1) =>
        match fss w1 !! c with
        | Some o =>
            (Val true,
             set_fss (<[c := fs_set_bit BCH_FS_FSCK_FIXED_ERRORS o]> (fss w1)) w1)
        | None => (Fault, w1)
        end
    | (Val false, w1) =>
        if ci then (Val false, w1)
        else (Goto_fsck_err,
              set_ret BCH_FSCK_ERRORS_NOT_FIXED
                (logged [Err (Fs c) "Unable to continue, halting" []] w1))
    | (Goto_fsck_err, w1) => (Goto_fsck_err, w1)
    | (Terminated, w1) => (Terminated, w1)
    | (Blocked, w1) => (Blocked, w1)
    | (Fault, w1) => (Fault, w1)
    end.
Proof.
  unfold __fsck_err, set_bit. run_prog.
  destruct (fsck_err_outcome h c cf nofix msg args w) as [[[|]| | | |] w1];
    try reflexivity.
  - destruct (fss w1 !! c); reflexivity.
  - destruct ci; reflexivity.
Qed.

Lemma test_bit_set (nr : N) (o : bch_fs) : test_bit nr (fs_set_bit nr o) = true.
Proof.
  unfold test_bit, fs_set_bit. simpl.
  rewrite Z.lor_spec, Z.shiftl_spec by lia.
  rewrite Z.sub_diag. simpl. apply orb_true_r.
Qed.


(** ** The negotiation: properties *)

(** C9.  A negotiation guarded by a condition that is false does nothing,
    whatever the mode, the policy and the host: [__fsck_err_on] and the four
    named macros yield [false] and leave the world (log, flags, [ret], the
    terminal) as it was; there is no jump to [fsck_err]. *)
Theorem fsck_err_on_false_is_noop (h : host) (c : fs_ptr) (cf ci : bool)
    (nofix msg : string) (args : list string) (w : world) :
  __fsck_err_on false h c cf ci nofix msg args w = (Val false, w)
  /\ unfixable_fsck_err_on false h c msg args w = (Val false, w)
  /\ need_fsck_err_on false h c msg args w = (Val false, w)
  /\ mustfix_fsck_err_on false h c msg args w = (Val false, w)
  /\ fsck_err_on false h c msg args w = (Val false, w).
Proof. repeat split. Qed.

(** C10.  The value of a negotiation macro is [true] exactly when the outcome
    of the negotiation ([_fix]) is "fixed", and whenever the macro has a value
    at all it is that outcome; a guarded macro has the value [true] exactly
    when its condition holds and the outcome is "fixed", and the value [false]
    when the condition is false. *)
Theorem fsck_err_value_is_outcome (h : host) (c : fs_ptr) (cf ci : bool)
    (nofix msg : string) (args : list string) (w : world) :
  let o := (fsck_err_outcome h c cf nofix msg args w).1 in
  let r := (__fsck_err h c cf ci nofix msg args w).1 in
  (r = Val true <-> o = Val true)
  /\ (forall b, r = Val b -> o = Val b)
  /\ (forall cond,
        (__fsck_err_on cond h c cf ci nofix msg args w).1 = Val true
        <-> cond = true /\ o = Val true)
  /\ (__fsck_err_on false h c cf ci nofix msg args w).1 = Val false
  /\ (forall m cond,
        (mode_macro m cond h c msg args w).1 = Val true
        <-> cond = true
            /\ (fsck_err_outcome h c (mode_fixable m) (mode_reason m) msg args w).1
               = Val true)
  /\ (forall m, (mode_macro m false h c msg args w).1 = Val false).
Proof.
  assert (Hv : forall cf' ci' nofix',
    ((__fsck_err h c cf' ci' nofix' msg args w).1 = Val true
     <-> (fsck_err_outcome h c cf' nofix' msg args w).1 = Val true)
    /\ (forall b, (__fsck_err h c cf' ci' nofix' msg args w).1 = Val b ->
                  (fsck_err_outcome h c cf' nofix' msg args w).1 = Val b)).
  { intros cf' ci' nofix'. rewrite fsck_err_run.
    destruct (fsck_err_outcome h c cf' nofix' msg args w) as [[[|]| | | |] w1] eqn:Ho;
      simpl; try (split; [split|intros b]; discriminate).
    - destruct (fsck_err_outcome_fixed _ _ _ _ _ _ _ _ Ho) as [_ [o0 Hc]].
      destruct (fsck_err_outcome_frame _ _ _ _ _ _ _ _ _ Ho) as [Hf _].
      rewrite Hf, Hc. simpl. split; [split|]; auto.
    - destruct ci'; simpl; (split; [split|intros b]; try discriminate; auto). }
  assert (Hon : forall cf' ci' nofix' cond,
    (__fsck_err_on cond h c cf' ci' nofix' msg args w).1 = Val true
    <-> cond = true /\ (fsck_err_outcome h c cf' nofix' msg args w).1 = Val true).
  { intros cf' ci' nofix' [|]; unfold __fsck_err_on.
    - rewrite (proj1 (Hv cf' ci' nofix')). tauto.
    - simpl. split; [discriminate|intros [? _]; discriminate]. }
  cbv zeta.
  split; [apply Hv|]. split; [apply Hv|].
  split; [intros cond; apply Hon|]. split; [reflexivity|].
  split.
  - intros m cond. destruct m; apply Hon.
  - intros m. destruct m; reflexivity.
Qed.

(** C5.  A negotiation sets [BCH_FS_FSCK_FIXED_ERRORS] in [c->flags] when its
    outcome is "fixed" and leaves the filesystem objects alone when it is not;
    the outcome is never "fixed", and the flag is never set, for an error that
    is not fixable. *)
Theorem fixed_errors_flag_iff_fixed (h : host) (c : fs_ptr) (cf ci : bool)
    (nofix msg : string) (args : list string) (w : world) :
  let o := (fsck_err_outcome h c cf nofix msg args w).1 in
  let w' := (__fsck_err h c cf ci nofix msg args w).2 in
  (o = Val true ->
     cf = true
     /\ exists o0, fss w !! c = Some o0
          /\ fss w' = <[c := fs_set_bit BCH_FS_FSCK_FIXED_ERRORS o0]> (fss w)
          /\ test_bit BCH_FS_FSCK_FIXED_ERRORS
               (fs_set_bit BCH_FS_FSCK_FIXED_ERRORS o0) = true)
  /\ (o <> Val true -> fss w' = fss w)
  /\ (cf = false -> o = Val false /\ fss w' = fss w).
Proof.
  cbv zeta. rewrite fsck_err_run.
  destruct (fsck_err_outcome h c cf nofix msg args w) as [o w1] eqn:Ho.
  destruct (fsck_err_outcome_frame _ _ _ _ _ _ _ _ _ Ho) as [Hf _].
  assert (Hnot : o <> Val true ->
    (match o with
     | Val true =>
         match fss w1 !! c with
         | Some o0 =>
             (Val true,
              set_fss (<[c := fs_set_bit BCH_FS_FSCK_FIXED_ERRORS o0]> (fss w1)) w1)
         | None => (Fault, w1)
         end
     | Val false =>
         if ci then (Val false, w1)
         else (Goto_fsck_err,
               set_ret BCH_FSCK_ERRORS_NOT_FIXED
                 (logged [Err (Fs c) "Unable to continue, halting" []] w1))
     | Goto_fsck_err => (Goto_fsck_err, w1)
     | Terminated => (Terminated, w1)
     | Blocked => (Blocked, w1)
     | Fault => (Fault, w1)
     end).2.(fss) = fss w).
  { intros Hn.
    destruct o as [[|]| | | |]; [contradiction | destruct ci; exact Hf | exact Hf ..]. }
  simpl. split; [|split].
  - intros ->.
    destruct (fsck_err_outcome_fixed _ _ _ _ _ _ _ _ Ho) as [Hcf [o0 Hc]].
    split; [exact Hcf|]. exists o0. rewrite Hf, Hc. simpl.
    auto using test_bit_set.
  - exact Hnot.
  - intros ->.
    assert (Hv : o = Val false)
      by (unfold fsck_err_outcome, M_bind, bch_err, M_ret in Ho; congruence).
    split; [exact Hv|]. apply Hnot. rewrite Hv. discriminate.
Qed.

(** C3.  For an error that is not fixable the outcome is "not fixed" on every
    host and under every policy, and the one line logged is the message
    followed by the reason in parentheses.  [unfixable_fsck_err_on] gives
    the reason "repair unimplemented", has the value [false] and goes on to
    whatever follows it: there is no jump to [fsck_err], and [ret] and the
    flags stay as they were. *)
Theorem unfixable_is_not_fixed (h : host) (c : fs_ptr) (nofix msg : string)
    (args : list string) (w : world) :
  fsck_err_outcome h c false nofix msg args w
  = (Val false, logged [Err (Fs c) (msg +:+ " (" +:+ nofix +:+ ")") args] w)
  /\ unfixable_fsck_err_on true h c msg args w
     = (Val false, logged [Err (Fs c) (msg +:+ " (repair unimplemented)") args] w)
  /\ render (msg +:+ " (repair unimplemented)") args
     = render msg args +:+ " (repair unimplemented)"
  /\ (forall (B : Type) (k : bool -> M B),
        (x <- unfixable_fsck_err_on true h c msg args; k x) w
        = k false (logged [Err (Fs c) (msg +:+ " (repair unimplemented)") args] w)).
Proof.
  assert (Hu : unfixable_fsck_err_on true h c msg args w
     = (Val false, logged [Err (Fs c) (msg +:+ " (repair unimplemented)") args] w)).
  { unfold unfixable_fsck_err_on, __fsck_err_on. rewrite fsck_err_run. reflexivity. }
  split; [reflexivity|]. split; [exact Hu|]. split.
  - apply render_suffix; [reflexivity | intros; reflexivity].
  - intros B k. unfold M_bind at 1. rewrite Hu. reflexivity.
Qed.


(** C2.  When the outcome of a negotiation is "not fixed" and the error may
    not be ignored, [__fsck_err] logs "Unable to continue, halting", sets
    [ret] to [BCH_FSCK_ERRORS_NOT_FIXED] and jumps to [fsck_err]: nothing that
    follows the macro in the enclosing function runs, and the function returns
    [BCH_FSCK_ERRORS_NOT_FIXED].  [mustfix_fsck_err] and [mustfix_fsck_err_on]
    with a true condition take this path under the policy [FSCK_ERR_NO], on
    both hosts. *)
Theorem not_fixed_not_ignorable_aborts (h : host) (c : fs_ptr) (msg : string)
    (args : list string) (w : world) (B : Type) (k : bool -> M B) :
  (forall (cf : bool) (nofix : string) (w1 : world),
     fsck_err_outcome h c cf nofix msg args w = (Val false, w1) ->
     let halted :=
       set_ret BCH_FSCK_ERRORS_NOT_FIXED
         (logged [Err (Fs c) "Unable to continue, halting" []] w1) in
     __fsck_err h c cf false nofix msg args w = (Goto_fsck_err, halted)
     /\ (x <- __fsck_err h c cf false nofix msg args; k x) w
        = (Goto_fsck_err, halted)
     /\ fsck_err_label (x <- __fsck_err h c cf false nofix msg args; k x) w
        = (Val BCH_FSCK_ERRORS_NOT_FIXED, halted))
  /\ (forall o : bch_fs,
       fss w !! c = Some o -> fix_errors (opts o) = FSCK_ERR_NO ->
       exists w1,
         fsck_err_outcome h c true "not fixing" msg args w = (Val false, w1)
         /\ let halted :=
              set_ret BCH_FSCK_ERRORS_NOT_FIXED
                (logged [Err (Fs c) "Unable to continue, halting" []] w1) in
            (x <- mustfix_fsck_err h c msg args; k x) w = (Goto_fsck_err, halted)
            /\ (x <- mustfix_fsck_err_on true h c msg args; k x) w
               = (Goto_fsck_err, halted)
            /\ fsck_err_label (x <- mustfix_fsck_err_on true h c msg args; k x) w
               = (Val BCH_FSCK_ERRORS_NOT_FIXED, halted)).
Proof.
  assert (Habort : forall cf nofix w1,
    fsck_err_outcome h c cf nofix msg args w = (Val false, w1) ->
    let halted :=
      set_ret BCH_FSCK_ERRORS_NOT_FIXED
        (logged [Err (Fs c) "Unable to continue, halting" []] w1) in
    __fsck_err h c cf false nofix msg args w = (Goto_fsck_err, halted)
    /\ (x <- __fsck_err h c cf false nofix msg args; k x) w
       = (Goto_fsck_err, halted)
    /\ fsck_err_label (x <- __fsck_err h c cf false nofix msg args; k x) w
       = (Val BCH_FSCK_ERRORS_NOT_FIXED, halted)).
  { intros cf nofix w1 Ho halted.
    assert (Hr : __fsck_err h c cf false nofix msg args w = (Goto_fsck_err, halted))
      by (rewrite fsck_err_run, Ho; reflexivity).
    split; [exact Hr|].
    assert (Hk : (x <- __fsck_err h c cf false nofix msg args; k x) w
                 = (Goto_fsck_err, halted))
      by (unfold M_bind at 1; rewrite Hr; reflexivity).
    split; [exact Hk|].
    unfold fsck_err_label. rewrite Hk. reflexivity. }
  split; [exact Habort|].
  intros o Hc Hp.
  assert (Ho : exists w1,
    fsck_err_outcome h c true "not fixing" msg args w = (Val false, w1)).
  { destruct h; simpl.
    - rewrite (should_fix_kernel_run _ _ _ _ _ Hc), Hp. eauto.
    - rewrite (should_fix_userspace_no _ _ _ _ _ Hc Hp). eauto. }
  destruct Ho as [w1 Ho]. exists w1. split; [exact Ho|].
  destruct (Habort true "not fixing" w1 Ho) as (_ & Hk & Hl).
  split; [exact Hk|]. split; [exact Hk | exact Hl].
Qed.

(** C4.  The named macros are [__fsck_err_on] (for [mustfix_fsck_err],
    [__fsck_err]) at the triples of the table: unfixable (false, true,
    "repair unimplemented"), need-fsck (false, true, "run fsck to correct"),
    mustfix (true, false, "not fixing"), plain (true, true, "not fixing");
    and under the policies [FSCK_ERR_YES] and [FSCK_ERR_NO] a mode behaves as
    the algorithm says for its triple: it fixes when it is fixable and the
    policy is yes, else goes on unfixed when it is ignorable, else aborts. *)
Theorem modes_supply_table (cond : bool) (h : host) (c : fs_ptr) (msg : string)
    (args : list string) :
  unfixable_fsck_err_on cond h c msg args
  = __fsck_err_on cond h c false true "repair unimplemented" msg args
  /\ need_fsck_err_on cond h c msg args
     = __fsck_err_on cond h c false true "run fsck to correct" msg args
  /\ mustfix_fsck_err_on cond h c msg args
     = __fsck_err_on cond h c true false "not fixing" msg args
  /\ mustfix_fsck_err h c msg args
     = __fsck_err h c true false "not fixing" msg args
  /\ fsck_err_on cond h c msg args
     = __fsck_err_on cond h c true true "not fixing" msg args
  /\ (forall m : mode,
       mode_macro m cond h c msg args
       = __fsck_err_on cond h c (mode_fixable m) (mode_ignorable m)
           (mode_reason m) msg args)
  /\ (forall (m : mode) (always : bool) (o : bch_fs) (w : world),
       fss w !! c = Some o ->
       fix_errors (opts o) = (if always then FSCK_ERR_YES else FSCK_ERR_NO) ->
       (mode_macro m true h c msg args w).1 = mode_behaviour m always).
Proof.
  do 5 (split; [reflexivity|]).
  assert (Hm : forall m : mode,
       mode_macro m cond h c msg args
       = __fsck_err_on cond h c (mode_fixable m) (mode_ignorable m)
           (mode_reason m) msg args) by (intros []; reflexivity).
  split; [exact Hm|].
  intros m always o w Hc Hp.
  assert (Hm' : mode_macro m true h c msg args
       = __fsck_err h c (mode_fixable m) (mode_ignorable m)
           (mode_reason m) msg args) by (destruct m; reflexivity).
  rewrite Hm', fsck_err_run. unfold mode_behaviour.
  destruct (mode_fixable m) eqn:Hfix; cbn [andb].
  - assert (Ho : exists w1,
      fsck_err_outcome h c true (mode_reason m) msg args w = (Val always, w1)
      /\ fss w1 = fss w).
    { destruct h, always; simpl.
      - rewrite (should_fix_kernel_run _ _ _ _ _ Hc), Hp. eauto.
      - rewrite (should_fix_kernel_run _ _ _ _ _ Hc), Hp. eauto.
      - rewrite (should_fix_userspace_yes _ _ _ _ _ Hc Hp). eauto.
      - rewrite (should_fix_userspace_no _ _ _ _ _ Hc Hp). eauto. }
    destruct Ho as (w1 & -> & Hf). rewrite Hf, Hc.
    destruct always; [reflexivity|]. destruct (mode_ignorable m); reflexivity.
  - unfold fsck_err_outcome. run_prog. destruct (mode_ignorable m); reflexivity.
Qed.

(** C1 (amended).  For a fixable error on a filesystem that is there, the
    tools' build follows the policy as the specification says: yes logs the
    message followed by ", fixing" and the outcome is "fixed"; no logs the
    message as it is and the outcome is "not fixed"; ask prints the message
    followed by ": fix?", waits for the operator and the outcome is the answer.
    The kernel build reads the policy as a truth value and never prompts:
    the outcome is "fixed" under every policy but no (ask too) and "not
    fixed" under no, and the one line it logs is the message's format
    followed by ", %sfixing", with the empty text ("fixed") or "not " ("not
    fixed") as one more argument behind the caller's.  For a message whose
    arguments are those its conversions take, that line reads as the
    message followed by ", fixing", or by ", not fixing". *)
Theorem policy_branch (c : fs_ptr) (o : bch_fs) (nofix msg : string)
    (args : list string) (w : world) :
  fss w !! c = Some o ->
  policy_branch_spec (fix_errors (opts o)) c (render msg args) w
    (fsck_err_outcome Userspace c true nofix msg args w)
  /\ fsck_err_outcome Kernel c true nofix msg args w
     = (Val (negb (Z.eqb (fix_errors (opts o)) 0)),
        logged [Err (Fs c) (msg +:+ ", %sfixing")
                  (args ++ [if negb (Z.eqb (fix_errors (opts o)) 0)
                            then "" else "not "])] w)
  /\ (conversions msg = length args ->
      kernel_policy_branch (fix_errors (opts o)) c (render msg args) w
        (fsck_err_outcome Kernel c true nofix msg args w)).
Proof.
  intros Hc. split; [|split].
  - unfold policy_branch_spec. simpl. split; [|split]; intros Hp.
    + rewrite (should_fix_userspace_yes _ _ _ _ _ Hc Hp). simpl.
      split; [reflexivity|]. eexists _, _. split; [reflexivity|].
      apply render_suffix; [reflexivity | intros; reflexivity].
    + rewrite (should_fix_userspace_no _ _ _ _ _ Hc Hp). simpl.
      split; [reflexivity|]. eexists _, _. split; reflexivity.
    + rewrite (should_fix_userspace_ask _ _ _ _ _ Hc Hp).
      exists (logged [Printf (msg +:+ ": fix?") args] w). split.
      * eexists _, _. split; [reflexivity|].
        apply render_suffix; [reflexivity | intros; reflexivity].
      * destruct (stdin w); reflexivity.
  - simpl. apply (should_fix_kernel_run _ _ _ _ _ Hc).
  - intros Hargs. unfold kernel_policy_branch. simpl.
    rewrite (should_fix_kernel_run _ _ _ _ _ Hc). simpl.
    split; intros Hp.
    + apply Z.eqb_neq in Hp. rewrite Hp. simpl.
      split; [reflexivity|]. eexists _, _. split; [reflexivity|].
      rewrite render_kernel by exact Hargs. reflexivity.
    + rewrite Hp. simpl.
      split; [reflexivity|]. eexists _, _. split; [reflexivity|].
      rewrite render_kernel by exact Hargs. reflexivity.
Qed.

(** ** Reports: lemmas *)

Lemma bind_val {A B : Type} (m : M A) (k : A -> M B) (w w' : world) (a : A) :
  m w = (Val a, w') -> M_bind m k w = k a w'.
Proof. intros H. unfold M_bind. rewrite H. reflexivity. Qed.

Lemma bch_dev_eqb_refl (ca : bch_dev) : bch_dev_eqb ca ca = true.
Proof. unfold bch_dev_eqb. rewrite N.eqb_refl, String.eqb_refl. reflexivity. Qed.

Lemma updates_app (ca : bch_dev) (t u : list event) :
  updates ca (t ++ u) = (updates ca t + updates ca u)%nat.
Proof.
  induction t as [|e t IH]; [reflexivity|].
  destruct e; simpl; try exact IH.
  destruct (bch_dev_eqb ca ca0); simpl; congruence.
Qed.

Lemma emissions_app (t u : list event) :
  emissions (t ++ u) = (emissions t + emissions u)%nat.
Proof.
  induction t as [|e t IH]; [reflexivity|].
  destruct e; simpl; congruence.
Qed.

Lemma let_through_le (n : nat) (verdicts : list bool) :
  (let_through n verdicts <= n)%nat.
Proof.
  revert verdicts. induction n as [|n IH]; intros verdicts; simpl; [lia|].
  destruct verdicts as [|[|] rest]; [lia | specialize (IH rest); lia ..].
Qed.

(** One report: the line when the limiter lets it through, then the call. *)
Lemma nonfatal_io_error_run (ca : bch_dev) (fmt : string) (args : list string)
    (w : world) :
  bch2_dev_nonfatal_io_error ca fmt args w
  = (Val tt,
     set_ratelimit (tail (ratelimit w))
       (logged ((if next_verdict w
                 then [Err (Fs (fs ca)) ("IO error on %s for " +:+ fmt) (name ca :: args)]
                 else []) ++ [Nonfatal_io_error ca]) w)).
Proof.
  unfold bch2_dev_nonfatal_io_error, printk_ratelimited, next_verdict. run_prog.
  destruct w as [m t i r f z]. destruct r as [|[|] r]; simpl;
    unfold logged, set_ratelimit, set_trace; simpl; rewrite <- ?app_assoc; reflexivity.
Qed.

(** The guarded form reports when its condition holds and has the value of
    the condition. *)
Lemma nonfatal_io_err_on_run (cond : bool) (ca : bch_dev) (fmt : string)
    (args : list string) (w : world) :
  bch2_dev_nonfatal_io_err_on cond ca fmt args w
  = (Val cond,
     if cond then (bch2_dev_nonfatal_io_error ca fmt args w).2 else w).
Proof.
  unfold bch2_dev_nonfatal_io_err_on. destruct cond; [|reflexivity].
  rewrite (bind_val _ _ _ _ _ (nonfatal_io_error_run ca fmt args w)).
  rewrite nonfatal_io_error_run. reflexivity.
Qed.

(** ** Reports: properties *)

(** C7.  [bch2_fs_bug], and [bch2_fs_bug_on] with a true condition, log one
    line and then the process is terminated by [BUG()]: whatever follows the
    macro in the caller never runs. *)
Theorem bch2_fs_bug_never_returns (c : fs_ptr) (fmt : string) (args : list string)
    (w : world) (B : Type) (k : unit -> M B) :
  bch2_fs_bug c fmt args w = (Terminated, logged [Err (Fs c) fmt args] w)
  /\ (x <- bch2_fs_bug c fmt args; k x) w
     = (Terminated, logged [Err (Fs c) fmt args] w)
  /\ bch2_fs_bug_on true c fmt args w
     = (Terminated, logged [Err (Fs c) fmt args] w)
  /\ (x <- bch2_fs_bug_on true c fmt args; k x) w
     = (Terminated, logged [Err (Fs c) fmt args] w)
  /\ emissions (trace (logged [Err (Fs c) fmt args] w)) = S (emissions (trace w)).
Proof.
  do 4 (split; [reflexivity|]).
  simpl. rewrite emissions_app. simpl. lia.
Qed.

(** C8.  However many times [bch2_dev_nonfatal_io_error] is invoked for a
    device, [bch2_nonfatal_io_error] is called for it once per invocation,
    whatever the rate limiter decides; the lines logged are those the limiter
    lets through, at most one per invocation. *)
Theorem nonfatal_io_error_updates_every_time (ca : bch_dev)
    (reports : list (string * list string)) (w : world) :
  let r := report_all ca reports w in
  r.1 = Val tt
  /\ updates ca (trace r.2) = (updates ca (trace w) + length reports)%nat
  /\ emissions (trace r.2)
     = (emissions (trace w) + let_through (length reports) (ratelimit w))%nat
  /\ (emissions (trace r.2) <= emissions (trace w) + length reports)%nat.
Proof.
  cbv zeta.
  assert (H : (report_all ca reports w).1 = Val tt
    /\ updates ca (trace (report_all ca reports w).2)
       = (updates ca (trace w) + length reports)%nat
    /\ emissions (trace (report_all ca reports w).2)
       = (emissions (trace w) + let_through (length reports) (ratelimit w))%nat).
  { revert w. induction reports as [|[fmt args] rest IH]; intros w.
    - simpl. repeat split; lia.
    - cbn [report_all].
      rewrite (bind_val _ _ _ _ _ (nonfatal_io_error_run ca fmt args w)).
      destruct (IH (set_ratelimit (tail (ratelimit w))
        (logged ((if next_verdict w
                 then [Err (Fs (fs ca)) ("IO error on %s for " +:+ fmt) (name ca :: args)]
                 else []) ++ [Nonfatal_io_error ca]) w))) as (H1 & H2 & H3).
      split; [exact H1|]. rewrite H2, H3. clear IH H1 H2 H3.
      cbn [trace ratelimit set_ratelimit logged set_trace length].
      rewrite !updates_app, !emissions_app. unfold next_verdict.
      destruct (ratelimit w) as [|[|] vs]; cbn [updates emissions tail let_through app];
        rewrite ?bch_dev_eqb_refl; split; try lia.
      destruct (length rest); simpl; lia. }
  destruct H as (H1 & H2 & H3). repeat split; try assumption.
  rewrite H3. pose proof (let_through_le (length reports) (ratelimit w)). lia.
Qed.


Lemma fatal_error_run (c : fs_ptr) (w : world) :
  bch2_fatal_error c w
  = (Val tt, set_fatal ({[c]} ∪ fatal w) (logged [Fatal_error c] w)).
Proof. reflexivity. Qed.

(** [bch2_dev_fatal_error] reaches the filesystem of the device when the [c]
    of the place it is expanded in is that filesystem. *)
Lemma bch2_dev_fatal_error_owner (ca : bch_dev) (fmt : string) (args : list string)
    (w : world) :
  reports_fatal ca w (bch2_dev_fatal_error (fs ca) ca fmt args w).
Proof.
  unfold reports_fatal. simpl. split; [reflexivity|]. split.
  - exists (Dev ca), fmt, args. rewrite <- app_assoc. reflexivity.
  - set_solver.
Qed.

(** C6 (amended).  [bch2_dev_fatal_io_error] hands its message to the rate
    limited log, so the line is there when the limiter lets it through and
    only then; in either case the filesystem that owns the device is put into
    the fatal state afterwards.  [bch2_dev_fatal_error] logs its message
    first, always, and calls [bch2_fatal_error] next. *)
Theorem dev_fatal_reports (ca : bch_dev) (fmt : string) (args : list string)
    (w : world) :
  let r := bch2_dev_fatal_io_error ca fmt args w in
  (r.1 = Val tt
   /\ trace r.2
      = (trace w
         ++ (if next_verdict w
             then [Err (Fs (fs ca)) ("fatal IO error on %s for " +:+ fmt)
                     (name ca :: args)]
             else [])
         ++ [Fatal_error (fs ca)])%list
   /\ fs ca ∈ fatal r.2
   /\ (next_verdict w = true -> reports_fatal ca w r))
  /\ (forall c : fs_ptr, exists c' : fs_ptr,
        (bch2_dev_fatal_error c ca fmt args w).1 = Val tt
        /\ trace (bch2_dev_fatal_error c ca fmt args w).2
           = (trace w ++ [Err (Dev ca) fmt args; Fatal_error c'])%list).
Proof.
  cbv zeta. split.
  - assert (Hr : bch2_dev_fatal_io_error ca fmt args w
      = (Val tt,
         set_fatal ({[fs ca]} ∪ fatal w)
           (set_ratelimit (tail (ratelimit w))
              (logged ((if next_verdict w
                        then [Err (Fs (fs ca)) ("fatal IO error on %s for " +:+ fmt)
                                (name ca :: args)]
                        else []) ++ [Fatal_error (fs ca)]) w)))).
    { unfold bch2_dev_fatal_io_error, printk_ratelimited, next_verdict. run_prog.
      destruct w as [m t i r f z]. destruct r as [|[|] r]; simpl;
        unfold logged, set_ratelimit, set_trace, set_fatal; simpl;
        rewrite <- ?app_assoc; reflexivity. }
    rewrite Hr. simpl. split; [reflexivity|]. split; [reflexivity|].
    split; [set_solver|].
    intros Hv. rewrite Hv. unfold reports_fatal. simpl.
    split; [reflexivity|]. split; [|set_solver].
    eexists _, _, _. reflexivity.
  - intros c. exists c. simpl. split; [reflexivity|].
    rewrite <- app_assoc. reflexivity.
Qed.

(** ** Further lemmas *)

Lemma prompts_count_app (t u : list event) :
  prompts_count (t ++ u) = (prompts_count t + prompts_count u)%nat.
Proof.
  induction t as [|e t IH]; [reflexivity|].
  destruct e; simpl; congruence.
Qed.

Lemma rendered_app (t u : list event) :
  rendered (t ++ u) = (rendered t ++ rendered u)%list.
Proof.
  induction t as [|e t IH]; [reflexivity|].
  destruct e; simpl; congruence.
Qed.

(** The bits of the flags after [set_bit]. *)
Lemma test_bit_fs_set_bit (n nr : N) (o : bch_fs) :
  test_bit n (fs_set_bit nr o) = test_bit n o || N.eqb n nr.
Proof.
  unfold test_bit, fs_set_bit. simpl.
  rewrite Z.lor_spec, Z.shiftl_1_l, Z.pow2_bits_eqb by lia.
  f_equal. destruct (N.eqb_spec n nr) as [->|Hne].
  - apply Z.eqb_refl.
  - apply Z.eqb_neq. lia.
Qed.

Lemma fs_set_bit_idem (nr : N) (o : bch_fs) :
  fs_set_bit nr (fs_set_bit nr o) = fs_set_bit nr o.
Proof.
  unfold fs_set_bit. simpl. f_equal.
  rewrite <- Z.lor_assoc, Z.lor_diag. reflexivity.
Qed.

(** ** Further properties of one negotiation *)

(** X1.  A negotiation on a filesystem that is there leaves its options
    alone, changes no flag but [BCH_FS_FSCK_FIXED_ERRORS], which it sets
    exactly when the macro has the value [true], and touches no other
    filesystem. *)
Theorem fsck_err_sets_one_bit (h : host) (c : fs_ptr) (cf ci : bool)
    (nofix msg : string) (args : list string) (w : world) (o : bch_fs) :
  fss w !! c = Some o ->
  let r := __fsck_err h c cf ci nofix msg args w in
  exists o',
    fss r.2 !! c = Some o'
    /\ opts o' = opts o
    /\ (forall n : N,
          test_bit n o'
          = test_bit n o || (N.eqb n BCH_FS_FSCK_FIXED_ERRORS && is_fixed r.1))
    /\ (forall c' : fs_ptr, c' <> c -> fss r.2 !! c' = fss w !! c').
Proof.
  intros Hc. cbv zeta. rewrite fsck_err_run.
  destruct (fsck_err_outcome h c cf nofix msg args w) as [v w1] eqn:Ho.
  destruct (fsck_err_outcome_frame _ _ _ _ _ _ _ _ _ Ho) as [Hf _].
  assert (Hsame : forall o1 : outcome bool, is_fixed o1 = false ->
    exists o', fss w1 !! c = Some o' /\ opts o' = opts o
      /\ (forall n : N,
            test_bit n o'
            = test_bit n o || (N.eqb n BCH_FS_FSCK_FIXED_ERRORS && is_fixed o1))
      /\ (forall c' : fs_ptr, c' <> c -> fss w1 !! c' = fss w !! c')).
  { intros o1 Hn. exists o. rewrite Hf, Hn. repeat split; [exact Hc|].
    intros n. rewrite andb_false_r, orb_false_r. reflexivity. }
  destruct v as [[|]| | | |];
    [ | | exact (Hsame Goto_fsck_err eq_refl) | exact (Hsame Terminated eq_refl)
      | exact (Hsame Blocked eq_refl) | exact (Hsame Fault eq_refl) ].
  - rewrite Hf, Hc. simpl. exists (fs_set_bit BCH_FS_FSCK_FIXED_ERRORS o).
    rewrite lookup_insert_eq. repeat split.
    + intros n. rewrite andb_true_r. apply test_bit_fs_set_bit.
    + intros c' Hne. apply lookup_insert_ne. congruence.
  - destruct ci;
      [exact (Hsame (Val false) eq_refl) | exact (Hsame Goto_fsck_err eq_refl)].
Qed.

(** X2.  A negotiation that may not be ignored never has the value [false]:
    it has the value [true] or control does not come back from it.  So what
    follows [mustfix_fsck_err] runs only after a fix was agreed, and a
    guarded one is [false] only when its condition is. *)
Theorem not_ignorable_never_false (h : host) (c : fs_ptr) (cf : bool)
    (nofix msg : string) (args : list string) (w : world) :
  let r := __fsck_err h c cf false nofix msg args w in
  (r.1 = Val true \/ r.1 = Goto_fsck_err \/ r.1 = Blocked \/ r.1 = Fault)
  /\ (forall cond : bool,
        (__fsck_err_on cond h c cf false nofix msg args w).1 = Val false ->
        cond = false)
  /\ ((mustfix_fsck_err h c msg args w).1 = Val true
      \/ (mustfix_fsck_err h c msg args w).1 = Goto_fsck_err
      \/ (mustfix_fsck_err h c msg args w).1 = Blocked
      \/ (mustfix_fsck_err h c msg args w).1 = Fault)
  /\ (forall cond : bool,
        (mustfix_fsck_err_on cond h c msg args w).1 = Val false -> cond = false).
Proof.
  assert (Hr : forall cf' nofix',
    let r := __fsck_err h c cf' false nofix' msg args w in
    r.1 = Val true \/ r.1 = Goto_fsck_err \/ r.1 = Blocked \/ r.1 = Fault).
  { intros cf' nofix'. cbv zeta. rewrite fsck_err_run.
    destruct (fsck_err_outcome h c cf' nofix' msg args w) as [v w1] eqn:Ho.
    destruct v as [[|]| | | |]; simpl; auto.
    - destruct (fss w1 !! c); simpl; auto.
    - exfalso. revert Ho.
      unfold fsck_err_outcome, __fsck_err_should_fix, __fsck_err_should_fix_kernel,
        __fsck_err_should_fix_userspace, read_fix_errors. run_prog.
      destruct cf'; [destruct h|]; outcome_cases w c; intros; simplify_eq. }
  assert (Hon : forall cf' nofix' cond,
    (__fsck_err_on cond h c cf' false nofix' msg args w).1 = Val false ->
    cond = false).
  { intros cf' nofix' [|]; [|reflexivity]. unfold __fsck_err_on. intros Hv.
    destruct (Hr cf' nofix') as [H|[H|[H|H]]]; rewrite H in Hv; discriminate. }
  cbv zeta. split; [apply Hr|]. split; [apply Hon|].
  split; [apply Hr|apply Hon].
Qed.

(** X3.  [ret] is written exactly when the negotiation jumps, and then it is
    [BCH_FSCK_ERRORS_NOT_FIXED]; a negotiation that may be ignored never
    jumps, so of the named macros only [mustfix_fsck_err_on] with a true
    condition can. *)
Theorem ret_written_on_jump_only (h : host) (c : fs_ptr) (cf ci : bool)
    (nofix msg : string) (args : list string) (w : world) :
  let r := __fsck_err h c cf ci nofix msg args w in
  ret r.2 = (if is_goto r.1 then BCH_FSCK_ERRORS_NOT_FIXED else ret w)
  /\ (is_goto r.1 = true -> ci = false)
  /\ (forall (m : mode) (cond : bool),
        is_goto (mode_macro m cond h c msg args w).1 = true ->
        m = Mandatory_fix /\ cond = true).
Proof.
  assert (Hr : forall cf' ci' nofix',
    let r := __fsck_err h c cf' ci' nofix' msg args w in
    ret r.2 = (if is_goto r.1 then BCH_FSCK_ERRORS_NOT_FIXED else ret w)
    /\ (is_goto r.1 = true -> ci' = false)).
  { intros cf' ci' nofix'. cbv zeta. rewrite fsck_err_run.
    destruct (fsck_err_outcome h c cf' nofix' msg args w) as [v w1] eqn:Ho.
    destruct (fsck_err_outcome_frame _ _ _ _ _ _ _ _ _ Ho) as (_ & Hret & _).
    assert (Hng : v <> Goto_fsck_err).
    { revert Ho.
      unfold fsck_err_outcome, __fsck_err_should_fix, __fsck_err_should_fix_kernel,
        __fsck_err_should_fix_userspace, read_fix_errors. run_prog.
      destruct cf'; [destruct h|]; outcome_cases w c; intros; simplify_eq;
        discriminate. }
    destruct v as [[|]| | | |]; simpl; try (split; [exact Hret | discriminate]).
    - destruct (fss w1 !! c); simpl; (split; [exact Hret | discriminate]).
    - destruct ci'; simpl; (split; [first [exact Hret | reflexivity] | auto]).
    - contradiction. }
  cbv zeta. split; [apply Hr|]. split; [apply Hr|].
  intros m [|] Hg; [|destruct m; discriminate Hg].
  destruct m; try (apply Hr in Hg; discriminate Hg). auto.
Qed.

(** The kernel's negotiation, in full. *)
Lemma kernel_fsck_err_run (c : fs_ptr) (cf ci : bool) (nofix msg : string)
    (args : list string) (w : world) :
  __fsck_err Kernel c cf ci nofix msg args w
  = let halt w1 :=
      if ci then (Val false, w1)
      else (Goto_fsck_err,
            set_ret BCH_FSCK_ERRORS_NOT_FIXED
              (logged [Err (Fs c) "Unable to continue, halting" []] w1)) in
    if cf then
      match fss w !! c with
      | None => (Fault, w)
      | Some o =>
          if negb (Z.eqb (fix_errors (opts o)) 0) then
            (Val true,
             set_fss (<[c := fs_set_bit BCH_FS_FSCK_FIXED_ERRORS o]> (fss w))
               (logged [Err (Fs c) (msg +:+ ", %sfixing") (args ++ [""])] w))
          else
            halt (logged [Err (Fs c) (msg +:+ ", %sfixing") (args ++ ["not "])] w)
      end
    else halt (logged [Err (Fs c) (msg +:+ " (" +:+ nofix +:+ ")") args] w).
Proof.
  rewrite fsck_err_run. destruct cf; [|reflexivity].
  destruct (fss w !! c) as [o|] eqn:Hc.
  - simpl. rewrite (should_fix_kernel_run _ _ _ _ _ Hc).
    destruct (negb (Z.eqb (fix_errors (opts o)) 0)); simpl; [|reflexivity].
    rewrite Hc. reflexivity.
  - simpl. unfold __fsck_err_should_fix_kernel, read_fix_errors. run_prog.
    rewrite Hc. reflexivity.
Qed.

(** X4.  The kernel's negotiation never prints a prompt, never takes an
    answer and never waits for one: what it does is the same whatever the
    operator has typed. *)
Theorem kernel_never_prompts (c : fs_ptr) (cf ci : bool) (nofix msg : string)
    (args : list string) (w : world) :
  let r := __fsck_err Kernel c cf ci nofix msg args w in
  stdin r.2 = stdin w
  /\ prompts_count (trace r.2) = prompts_count (trace w)
  /\ (r.1 = Val true \/ r.1 = Val false \/ r.1 = Goto_fsck_err \/ r.1 = Fault)
  /\ (forall i : list bool,
        (__fsck_err Kernel c cf ci nofix msg args (set_stdin i w)).1 = r.1).
Proof.
  cbv zeta. split; [|split; [|split]].
  - rewrite kernel_fsck_err_run. cbv zeta.
    destruct cf; [destruct (fss w !! c) as [o|];
      [destruct (negb (Z.eqb (fix_errors (opts o)) 0))|]|];
      try destruct ci; reflexivity.
  - rewrite kernel_fsck_err_run. cbv zeta.
    destruct cf; [destruct (fss w !! c) as [o|];
      [destruct (negb (Z.eqb (fix_errors (opts o)) 0))|]|];
      try destruct ci; simpl; rewrite ?prompts_count_app; simpl; lia.
  - rewrite kernel_fsck_err_run. cbv zeta.
    destruct cf; [destruct (fss w !! c) as [o|];
      [destruct (negb (Z.eqb (fix_errors (opts o)) 0))|]|];
      try destruct ci; simpl; auto.
  - intros i. rewrite !kernel_fsck_err_run. cbv zeta.
    change (fss (set_stdin i w)) with (fss w).
    destruct cf; [destruct (fss w !! c) as [o|];
      [destruct (negb (Z.eqb (fix_errors (opts o)) 0))|]|];
      try destruct ci; reflexivity.
Qed.

(** X5.  The tools' [switch] has no [default]: under a policy that is none
    of the three enumerators a fixable error is not fixed and nothing at all
    is logged for it.  A negotiation that may be ignored is then silent
    altogether, and one that may not logs the halting line alone. *)
Theorem userspace_unknown_policy_is_silent (c : fs_ptr) (o : bch_fs)
    (nofix msg : string) (args : list string) (w : world) :
  fss w !! c = Some o ->
  fix_errors (opts o) <> FSCK_ERR_NO ->
  fix_errors (opts o) <> FSCK_ERR_YES ->
  fix_errors (opts o) <> FSCK_ERR_ASK ->
  fsck_err_outcome Userspace c true nofix msg args w = (Val false, w)
  /\ __fsck_err Userspace c true true nofix msg args w = (Val false, w)
  /\ __fsck_err Userspace c true false nofix msg args w
     = (Goto_fsck_err,
        set_ret BCH_FSCK_ERRORS_NOT_FIXED
          (logged [Err (Fs c) "Unable to continue, halting" []] w)).
Proof.
  intros Hc Hno Hyes Hask.
  assert (Ho : fsck_err_outcome Userspace c true nofix msg args w = (Val false, w)).
  { simpl. unfold __fsck_err_should_fix_userspace, read_fix_errors. run_prog.
    rewrite Hc. unfold FSCK_ERR_NO, FSCK_ERR_YES, FSCK_ERR_ASK in *.
    destruct (fix_errors (opts o)) as [|[p|[p|p|]|]|p]; try reflexivity;
      contradiction. }
  split; [exact Ho|]. rewrite !fsck_err_run, Ho. split; reflexivity.
Qed.

(** ** Negotiations in sequence: lemmas *)

Lemma extends_refl (w : world) : extends w w.
Proof.
  unfold extends. split; [exists []; symmetry; apply app_nil_r|].
  split; [exists []; reflexivity|]. repeat split; eauto.
Qed.

Lemma extends_trans (w1 w2 w3 : world) :
  extends w1 w2 -> extends w2 w3 -> extends w1 w3.
Proof.
  intros (Ht & Hi & Hf & Hr & Ho & Hn) (Ht' & Hi' & Hf' & Hr' & Ho' & Hn').
  unfold extends. split; [|split; [|split; [|split; [|split]]]].
  - destruct Ht as [es Ht]. destruct Ht' as [es' Ht'].
    exists (es ++ es')%list. rewrite Ht', Ht, app_assoc. reflexivity.
  - destruct Hi as [i Hi]. destruct Hi' as [i' Hi'].
    exists (i ++ i')%list. rewrite Hi, Hi', app_assoc. reflexivity.
  - congruence.
  - congruence.
  - intros c o Hc. destruct (Ho c o Hc) as (o' & Hc' & Hopts & Hbits).
    destruct (Ho' c o' Hc') as (o'' & Hc'' & Hopts' & Hbits').
    exists o''. split; [exact Hc''|]. split; [congruence|]. auto.
  - auto.
Qed.

Lemma extends_logged (es : list event) (w : world) : extends w (logged es w).
Proof.
  unfold extends. split; [exists es; reflexivity|].
  split; [exists []; reflexivity|]. repeat split; eauto.
Qed.

Lemma extends_set_ret (v : Z) (w : world) : extends w (set_ret v w).
Proof.
  unfold extends. split; [exists []; symmetry; apply app_nil_r|].
  split; [exists []; reflexivity|]. repeat split; eauto.
Qed.

Lemma extends_answer (a : bool) (rest : list bool) (w : world) :
  stdin w = a :: rest -> extends w (set_stdin rest w).
Proof.
  intros Hi. unfold extends. split; [exists []; symmetry; apply app_nil_r|].
  split; [exists [a]; exact Hi|]. repeat split; eauto.
Qed.

Lemma extends_set_bit (nr : N) (c : fs_ptr) (o : bch_fs) (w : world) :
  fss w !! c = Some o ->
  extends w (set_fss (<[c := fs_set_bit nr o]> (fss w)) w).
Proof.
  intros Hc. unfold extends. split; [exists []; symmetry; apply app_nil_r|].
  split; [exists []; reflexivity|]. split; [reflexivity|]. split; [reflexivity|].
  split.
  - intros c' o' Hc'. simpl. destruct (decide (c = c')) as [<-|Hne].
    + rewrite lookup_insert_eq. exists (fs_set_bit nr o).
      assert (o' = o) as -> by congruence.
      split; [reflexivity|]. split; [reflexivity|].
      intros n Hn. rewrite test_bit_fs_set_bit, Hn. reflexivity.
    + rewrite lookup_insert_ne by exact Hne. eauto.
  - intros c' Hc'. simpl. rewrite lookup_insert_ne; [exact Hc'|]. congruence.
Qed.

Lemma fsck_err_outcome_extends (h : host) (c : fs_ptr) (cf : bool)
    (nofix msg : string) (args : list string) (w w1 : world) (v : outcome bool) :
  fsck_err_outcome h c cf nofix msg args w = (v, w1) -> extends w w1.
Proof.
  unfold fsck_err_outcome, __fsck_err_should_fix, __fsck_err_should_fix_kernel,
    __fsck_err_should_fix_userspace, read_fix_errors. run_prog.
  destruct cf; [destruct h|]; outcome_cases w c; intros; simplify_eq;
    first [ apply extends_refl
          | apply (extends_logged [_])
          | match goal with
            | Hi : stdin w = ?a :: ?rest |- _ =>
                apply (extends_trans _ (logged [Printf (msg +:+ ": fix?") args] w));
                  [apply extends_logged | apply (extends_answer a); exact Hi]
            end ].
Qed.

Lemma fsck_err_extends (h : host) (c : fs_ptr) (cf ci : bool)
    (nofix msg : string) (args : list string) (w : world) :
  extends w (__fsck_err h c cf ci nofix msg args w).2.
Proof.
  rewrite fsck_err_run.
  destruct (fsck_err_outcome h c cf nofix msg args w) as [v w1] eqn:Ho.
  pose proof (fsck_err_outcome_extends _ _ _ _ _ _ _ _ _ Ho) as He.
  destruct v as [[|]| | | |]; simpl; try exact He.
  - destruct (fss w1 !! c) as [o|] eqn:Hc; simpl; [|exact He].
    eapply extends_trans; [exact He|]. apply extends_set_bit. exact Hc.
  - destruct ci; simpl; [exact He|].
    eapply extends_trans; [exact He|].
    eapply extends_trans; [apply extends_logged | apply extends_set_ret].
Qed.

Lemma mode_macro_extends (m : mode) (cond : bool) (h : host) (c : fs_ptr)
    (msg : string) (args : list string) (w : world) :
  extends w (mode_macro m cond h c msg args w).2.
Proof.
  destruct cond; [|destruct m; apply extends_refl].
  destruct m; apply fsck_err_extends.
Qed.

(** One step of a sequence. *)
Lemma run_checks_step (h : host) (c : fs_ptr) (k : check) (rest : list check)
    (w : world) :
  run_checks h c (k :: rest) w
  = match mode_macro (chk_mode k) (chk_cond k) h c (chk_msg k) (chk_args k) w with
    | (Val _, w1) => run_checks h c rest w1
    | (Goto_fsck_err, w1) => (Goto_fsck_err, w1)
    | (Terminated, w1) => (Terminated, w1)
    | (Blocked, w1) => (Blocked, w1)
    | (Fault, w1) => (Fault, w1)
    end.
Proof. reflexivity. Qed.

(** One named macro under the policy yes, on either host. *)
Lemma mode_macro_yes (m : mode) (cond : bool) (h : host) (c : fs_ptr)
    (o : bch_fs) (msg : string) (args : list string) (w : world) :
  fss w !! c = Some o -> fix_errors (opts o) = FSCK_ERR_YES ->
  exists w1,
    mode_macro m cond h c msg args w = (Val (cond && mode_fixable m), w1)
    /\ ret w1 = ret w /\ stdin w1 = stdin w
    /\ fss w1 = (if cond && mode_fixable m
                 then <[c := fs_set_bit BCH_FS_FSCK_FIXED_ERRORS o]> (fss w)
                 else fss w)
    /\ emissions (trace w1)
       = (emissions (trace w) + (if cond then 1 else 0))%nat.
Proof.
  intros Hc Hp.
  destruct cond; [|exists w; destruct m; simpl; repeat split; lia].
  assert (Hfix : exists e,
    fsck_err_outcome h c true "not fixing" msg args w = (Val true, logged [e] w)
    /\ emissions [e] = 1%nat).
  { destruct h; simpl.
    - rewrite (should_fix_kernel_run _ _ _ _ _ Hc), Hp. simpl. eauto.
    - rewrite (should_fix_userspace_yes _ _ _ _ _ Hc Hp). eauto. }
  destruct Hfix as (e & Hfix & He).
  destruct m; simpl;
    unfold unfixable_fsck_err_on, need_fsck_err_on, mustfix_fsck_err_on,
      fsck_err_on, __fsck_err_on; rewrite fsck_err_run.
  - eexists. split; [reflexivity|]. simpl. rewrite emissions_app. simpl.
    repeat split; lia.
  - eexists. split; [reflexivity|]. simpl. rewrite emissions_app. simpl.
    repeat split; lia.
  - rewrite Hfix. simpl. rewrite Hc. eexists. split; [reflexivity|]. simpl.
    rewrite emissions_app, He. repeat split; lia.
  - rewrite Hfix. simpl. rewrite Hc. eexists. split; [reflexivity|]. simpl.
    rewrite emissions_app, He. repeat split; lia.
Qed.

(** One named macro under the policy no, on either host. *)
Lemma mode_macro_no (m : mode) (cond : bool) (h : host) (c : fs_ptr)
    (o : bch_fs) (msg : string) (args : list string) (w : world) :
  fss w !! c = Some o -> fix_errors (opts o) = FSCK_ERR_NO ->
  let abort := cond && negb (mode_ignorable m) in
  exists w1,
    mode_macro m cond h c msg args w
    = (if abort then Goto_fsck_err else Val false, w1)
    /\ fss w1 = fss w /\ stdin w1 = stdin w
    /\ ret w1 = (if abort then BCH_FSCK_ERRORS_NOT_FIXED else ret w)
    /\ emissions (trace w1)
       = (emissions (trace w) + (if cond then 1 else 0)
          + (if abort then 1 else 0))%nat.
Proof.
  intros Hc Hp. cbv zeta.
  destruct cond; [|exists w; destruct m; simpl; repeat split; lia].
  assert (Hfix : exists e,
    fsck_err_outcome h c true "not fixing" msg args w = (Val false, logged [e] w)
    /\ emissions [e] = 1%nat).
  { destruct h; simpl.
    - rewrite (should_fix_kernel_run _ _ _ _ _ Hc), Hp. simpl. eauto.
    - rewrite (should_fix_userspace_no _ _ _ _ _ Hc Hp). eauto. }
  destruct Hfix as (e & Hfix & He).
  destruct m; simpl;
    unfold unfixable_fsck_err_on, need_fsck_err_on, mustfix_fsck_err_on,
      fsck_err_on, __fsck_err_on; rewrite fsck_err_run.
  - eexists. split; [reflexivity|]. simpl. rewrite emissions_app. simpl.
    repeat split; lia.
  - eexists. split; [reflexivity|]. simpl. rewrite emissions_app. simpl.
    repeat split; lia.
  - rewrite Hfix. eexists. split; [reflexivity|]. simpl.
    rewrite !emissions_app, He. simpl. repeat split; lia.
  - rewrite Hfix. eexists. split; [reflexivity|]. simpl.
    rewrite emissions_app, He. repeat split; lia.
Qed.

(** The first statement of [__fsck_err] has a value, waits or faults. *)
Lemma fsck_err_outcome_kinds (h : host) (c : fs_ptr) (cf : bool)
    (nofix msg : string) (args : list string) (w : world) :
  (exists b, (fsck_err_outcome h c cf nofix msg args w).1 = Val b)
  \/ (fsck_err_outcome h c cf nofix msg args w).1 = Blocked
  \/ (fsck_err_outcome h c cf nofix msg args w).1 = Fault.
Proof.
  unfold fsck_err_outcome, __fsck_err_should_fix, __fsck_err_should_fix_kernel,
    __fsck_err_should_fix_userspace, read_fix_errors. run_prog.
  destruct cf; [destruct h|]; outcome_cases w c; eauto.
Qed.

(** How a named macro can end, and what it does to [ret]. *)
Lemma mode_macro_ret (m : mode) (cond : bool) (h : host) (c : fs_ptr)
    (msg : string) (args : list string) (w : world) :
  let r := mode_macro m cond h c msg args w in
  ((exists b, r.1 = Val b) /\ ret r.2 = ret w)
  \/ (r.1 = Goto_fsck_err /\ ret r.2 = BCH_FSCK_ERRORS_NOT_FIXED)
  \/ ((r.1 = Blocked \/ r.1 = Fault) /\ ret r.2 = ret w).
Proof.
  cbv zeta.
  assert (Hr : forall cf ci nofix,
    let r := __fsck_err h c cf ci nofix msg args w in
    ((exists b, r.1 = Val b) /\ ret r.2 = ret w)
    \/ (r.1 = Goto_fsck_err /\ ret r.2 = BCH_FSCK_ERRORS_NOT_FIXED)
    \/ ((r.1 = Blocked \/ r.1 = Fault) /\ ret r.2 = ret w)).
  { intros cf ci nofix. cbv zeta. rewrite fsck_err_run.
    pose proof (fsck_err_outcome_kinds h c cf nofix msg args w) as Hk.
    destruct (fsck_err_outcome h c cf nofix msg args w) as [v w1] eqn:Ho.
    destruct (fsck_err_outcome_frame _ _ _ _ _ _ _ _ _ Ho) as (_ & Hret & _).
    simpl in Hk. destruct Hk as [[b ->]|[->| ->]]; simpl; eauto.
    destruct b.
    - destruct (fss w1 !! c); simpl; eauto.
    - destruct ci; simpl; eauto. }
  destruct cond; [destruct m; apply Hr|].
  left. destruct m; simpl; eauto.
Qed.

Lemma run_checks_ret (h : host) (c : fs_ptr) (cs : list check) (w : world) :
  let r := run_checks h c cs w in
  (r.1 = Val tt /\ ret r.2 = ret w)
  \/ (r.1 = Goto_fsck_err /\ ret r.2 = BCH_FSCK_ERRORS_NOT_FIXED)
  \/ ((r.1 = Blocked \/ r.1 = Fault) /\ ret r.2 = ret w).
Proof.
  cbv zeta. revert w. induction cs as [|k rest IH]; intros w.
  - left. split; reflexivity.
  - rewrite run_checks_step.
    pose proof (mode_macro_ret (chk_mode k) (chk_cond k) h c (chk_msg k)
                  (chk_args k) w) as Hm. cbv zeta in Hm.
    destruct (mode_macro (chk_mode k) (chk_cond k) h c (chk_msg k) (chk_args k) w)
      as [v w1]. simpl in Hm.
    destruct Hm as [[[b ->] Hret]|[[-> Hret]|[[-> | ->] Hret]]]; simpl; eauto.
    rewrite <- Hret. apply IH.
Qed.

(** One ignorable macro under the policy ask, in the tools. *)
Lemma mode_macro_ask (m : mode) (cond : bool) (c : fs_ptr) (o : bch_fs)
    (msg : string) (args : list string) (w : world) :
  fss w !! c = Some o -> fix_errors (opts o) = FSCK_ERR_ASK ->
  mode_ignorable m = true ->
  exists w1,
    ret w1 = ret w
    /\ (if cond && mode_fixable m then
          prompts_count (trace w1) = S (prompts_count (trace w))
          /\ match stdin w with
             | a :: rest =>
                 mode_macro m cond Userspace c msg args w = (Val a, w1)
                 /\ stdin w1 = rest
                 /\ fss w1 = (if a
                              then <[c := fs_set_bit BCH_FS_FSCK_FIXED_ERRORS o]>
                                     (fss w)
                              else fss w)
             | [] =>
                 mode_macro m cond Userspace c msg args w = (Blocked, w1)
                 /\ stdin w1 = []
             end
        else
          mode_macro m cond Userspace c msg args w = (Val false, w1)
          /\ prompts_count (trace w1) = prompts_count (trace w)
          /\ stdin w1 = stdin w /\ fss w1 = fss w).
Proof.
  intros Hc Hp Hi.
  destruct cond; [|exists w; destruct m; simpl; repeat split].
  destruct m; try discriminate Hi; simpl;
    unfold unfixable_fsck_err_on, need_fsck_err_on, fsck_err_on, __fsck_err_on;
    rewrite fsck_err_run.
  - eexists. split; [|split; [reflexivity|]]; [reflexivity|]. simpl.
    rewrite prompts_count_app. simpl. repeat split; lia.
  - eexists. split; [|split; [reflexivity|]]; [reflexivity|]. simpl.
    rewrite prompts_count_app. simpl. repeat split; lia.
  - simpl. rewrite (should_fix_userspace_ask _ _ _ _ _ Hc Hp).
    destruct (stdin w) as [|a rest] eqn:Hin.
    + eexists. split; [|split; [|split; [reflexivity|]]]; try reflexivity.
      * simpl. rewrite prompts_count_app. simpl. lia.
      * simpl. exact Hin.
    + destruct a; simpl; rewrite ?Hc; eexists;
        (split; [|split; [|split; [reflexivity|split]]]); try reflexivity;
        simpl; rewrite prompts_count_app; simpl; lia.
Qed.

(** ** Negotiations in sequence: properties *)

(** X6.  Whatever the host, the policy and the answers, a sequence of
    negotiations only adds to the log and only takes answers from the front;
    it leaves the fatal set and the rate limiter alone, keeps the options of
    every filesystem object and every flag that was set, and neither makes
    nor loses a filesystem object. *)
Theorem run_checks_extends (h : host) (c : fs_ptr) (cs : list check) (w : world) :
  extends w (run_checks h c cs w).2.
Proof.
  revert w. induction cs as [|k rest IH]; intros w.
  - apply extends_refl.
  - rewrite run_checks_step.
    pose proof (mode_macro_extends (chk_mode k) (chk_cond k) h c (chk_msg k)
                  (chk_args k) w) as He.
    destruct (mode_macro (chk_mode k) (chk_cond k) h c (chk_msg k) (chk_args k) w)
      as [[b| | | |] w1]; simpl in *; try exact He.
    eapply extends_trans; [exact He | apply IH].
Qed.

(** X7.  Under the policy yes a sequence of named negotiations on a
    filesystem that is there always runs to its end, on either host: no
    jump, [ret] and the terminal untouched, one line per condition found,
    and [BCH_FS_FSCK_FIXED_ERRORS] set exactly when one of the conditions
    found has a repair. *)
Theorem run_checks_under_yes (h : host) (c : fs_ptr) (o : bch_fs)
    (cs : list check) (w : world) :
  fss w !! c = Some o -> fix_errors (opts o) = FSCK_ERR_YES ->
  let r := run_checks h c cs w in
  r.1 = Val tt
  /\ ret r.2 = ret w
  /\ stdin r.2 = stdin w
  /\ fss r.2 = (if existsb fixable_hit cs
                then <[c := fs_set_bit BCH_FS_FSCK_FIXED_ERRORS o]> (fss w)
                else fss w)
  /\ emissions (trace r.2)
     = (emissions (trace w) + length (List.filter chk_cond cs))%nat
  /\ fsck_err_label (run_checks h c cs) w = (Val (ret w), r.2).
Proof.
  intros Hc Hp. cbv zeta.
  assert (H : (run_checks h c cs w).1 = Val tt
    /\ ret (run_checks h c cs w).2 = ret w
    /\ stdin (run_checks h c cs w).2 = stdin w
    /\ fss (run_checks h c cs w).2
       = (if existsb fixable_hit cs
          then <[c := fs_set_bit BCH_FS_FSCK_FIXED_ERRORS o]> (fss w)
          else fss w)
    /\ emissions (trace (run_checks h c cs w).2)
       = (emissions (trace w) + length (List.filter chk_cond cs))%nat).
  { revert w o Hc Hp. induction cs as [|k rest IH]; intros w o Hc Hp.
    - simpl. repeat split; lia.
    - rewrite run_checks_step.
      destruct (mode_macro_yes (chk_mode k) (chk_cond k) h c o (chk_msg k)
                  (chk_args k) w Hc Hp) as (w1 & -> & Hret & Hin & Hfss & Hem).
      cbn [existsb List.filter]. unfold fixable_hit at 1.
      destruct (chk_cond k && mode_fixable (chk_mode k)) eqn:Hhit.
      + assert (Hc1 : fss w1 !! c = Some (fs_set_bit BCH_FS_FSCK_FIXED_ERRORS o))
          by (rewrite Hfss; apply lookup_insert_eq).
        destruct (IH w1 _ Hc1 Hp) as (H1 & H2 & H3 & H4 & H5).
        split; [exact H1|]. split; [congruence|]. split; [congruence|].
        split.
        * rewrite H4, Hfss, fs_set_bit_idem, insert_insert_eq.
          destruct (existsb fixable_hit rest); reflexivity.
        * rewrite H5, Hem. apply andb_true_iff in Hhit as [-> _].
          simpl. lia.
      + assert (Hc1 : fss w1 !! c = Some o) by (rewrite Hfss; exact Hc).
        destruct (IH w1 _ Hc1 Hp) as (H1 & H2 & H3 & H4 & H5).
        split; [exact H1|]. split; [congruence|]. split; [congruence|].
        split.
        * rewrite H4, Hfss. reflexivity.
        * rewrite H5, Hem. destruct (chk_cond k); simpl; lia. }
  destruct H as (H1 & H2 & H3 & H4 & H5).
  repeat split; try assumption.
  unfold fsck_err_label.
  destruct (run_checks h c cs w) as [v w'] eqn:Hr. simpl in *.
  rewrite H1, H2. reflexivity.
Qed.

(** X8.  Under the policy no a sequence of named negotiations never changes
    a filesystem object and never reads the terminal, on either host.  It
    jumps, with [ret] set to [BCH_FSCK_ERRORS_NOT_FIXED], exactly when a
    [mustfix_fsck_err_on] finds its condition; what stands behind the first
    such one has no effect at all. *)
Theorem run_checks_under_no (h : host) (c : fs_ptr) (o : bch_fs)
    (cs : list check) (w : world) :
  fss w !! c = Some o -> fix_errors (opts o) = FSCK_ERR_NO ->
  let r := run_checks h c cs w in
  r.1 = (if existsb mandatory_hit cs then Goto_fsck_err else Val tt)
  /\ ret r.2 = (if existsb mandatory_hit cs then BCH_FSCK_ERRORS_NOT_FIXED
               else ret w)
  /\ fss r.2 = fss w
  /\ stdin r.2 = stdin w
  /\ run_checks h c cs w = run_checks h c (until_mandatory cs) w
  /\ emissions (trace r.2)
     = (emissions (trace w) + length (List.filter chk_cond (until_mandatory cs))
        + (if existsb mandatory_hit cs then 1 else 0))%nat.
Proof.
  intros Hc Hp. cbv zeta. revert w Hc.
  induction cs as [|k rest IH]; intros w Hc.
  - simpl. repeat split; lia.
  - cbn [until_mandatory existsb].
    destruct (mode_macro_no (chk_mode k) (chk_cond k) h c o (chk_msg k)
                (chk_args k) w Hc Hp) as (w1 & Hm & Hfss & Hin & Hret & Hem).
    cbv zeta in Hm, Hret, Hem. fold (mandatory_hit k) in Hm, Hret, Hem.
    destruct (mandatory_hit k) eqn:Hhit.
    + rewrite !run_checks_step, Hm. simpl.
      assert (Hcond : chk_cond k = true)
        by (unfold mandatory_hit in Hhit; apply andb_true_iff in Hhit; tauto).
      rewrite Hcond in *. simpl. repeat split; try assumption; try lia.
    + rewrite !run_checks_step, Hm.
      assert (Hc1 : fss w1 !! c = Some o) by (rewrite Hfss; exact Hc).
      destruct (IH w1 Hc1) as (H1 & H2 & H3 & H4 & H5 & H6).
      simpl. split; [exact H1|]. split; [rewrite H2, Hret; reflexivity|].
      split; [congruence|]. split; [congruence|]. split; [exact H5|].
      rewrite H6, Hem. destruct (chk_cond k); simpl; lia.
Qed.

(** X9.  A function that starts with [ret = BCH_FSCK_OK] and whose body is a
    sequence of negotiations returns [BCH_FSCK_ERRORS_NOT_FIXED] exactly when
    one of them jumped to [fsck_err] and [BCH_FSCK_OK] exactly when all of
    them came back; it returns no other code. *)
Theorem fsck_function_result (h : host) (c : fs_ptr) (cs : list check)
    (w : world) :
  ret w = BCH_FSCK_OK ->
  let body := run_checks h c cs w in
  let f := fsck_err_label (run_checks h c cs) w in
  f.2 = body.2
  /\ (f.1 = Val BCH_FSCK_ERRORS_NOT_FIXED <-> body.1 = Goto_fsck_err)
  /\ (f.1 = Val BCH_FSCK_OK <-> body.1 = Val tt)
  /\ (f.1 = Val BCH_FSCK_OK \/ f.1 = Val BCH_FSCK_ERRORS_NOT_FIXED
      \/ f.1 = Blocked \/ f.1 = Fault).
Proof.
  intros Hret. cbv zeta. unfold fsck_err_label.
  pose proof (run_checks_ret h c cs w) as Hr. cbv zeta in Hr.
  destruct (run_checks h c cs w) as [v w1]. simpl in Hr.
  destruct Hr as [[-> Hr]|[[-> Hr]|[[-> | ->] Hr]]]; simpl; rewrite ?Hr, ?Hret;
    (split; [reflexivity|]);
    (split; [split; intros H; first [discriminate H | reflexivity]|]);
    (split; [split; intros H; first [discriminate H | reflexivity]|]); auto.
Qed.

(** X10.  In the tools under the policy ask, a sequence of negotiations that
    may all be ignored prompts once for every condition found that has a
    repair and for nothing else, and takes the operator's answers in order.
    With enough answers it runs to its end, the answers not used stay, and
    [BCH_FS_FSCK_FIXED_ERRORS] is set exactly when one of the answers used is
    yes.  With too few it stops at the prompt that gets no answer. *)
Theorem run_checks_under_ask (c : fs_ptr) (o : bch_fs) (cs : list check)
    (w : world) :
  fss w !! c = Some o -> fix_errors (opts o) = FSCK_ERR_ASK ->
  forallb (fun k => mode_ignorable (chk_mode k)) cs = true ->
  let n := length (List.filter fixable_hit cs) in
  let r := run_checks Userspace c cs w in
  ((n <= length (stdin w))%nat ->
     r.1 = Val tt
     /\ stdin r.2 = skipn n (stdin w)
     /\ prompts_count (trace r.2) = (prompts_count (trace w) + n)%nat
     /\ fss r.2 = (if existsb (fun a : bool => a) (firstn n (stdin w))
                   then <[c := fs_set_bit BCH_FS_FSCK_FIXED_ERRORS o]> (fss w)
                   else fss w)
     /\ ret r.2 = ret w)
  /\ ((length (stdin w) < n)%nat ->
      r.1 = Blocked
      /\ stdin r.2 = []
      /\ prompts_count (trace r.2)
         = (prompts_count (trace w) + S (length (stdin w)))%nat).
Proof.
  intros Hc Hp Hall. cbv zeta. revert w o Hc Hp.
  induction cs as [|k rest IH]; intros w o Hc Hp.
  - simpl. split; [intros _|intros H; lia].
    rewrite Nat.add_0_r. auto.
  - cbn [forallb] in Hall. apply andb_true_iff in Hall as [Hk Hrest].
    specialize (IH Hrest).
    destruct (mode_macro_ask (chk_mode k) (chk_cond k) c o (chk_msg k)
                (chk_args k) w Hc Hp Hk) as (w1 & Hret & Hm).
    rewrite run_checks_step. cbn [List.filter].
    fold (fixable_hit k) in Hm. destruct (fixable_hit k).
    + destruct Hm as [Hpr Hm]. cbn [length].
      destruct (stdin w) as [|a answers] eqn:Hin.
      * destruct Hm as [-> Hin1]. simpl. split; [intros H; lia|intros _].
        rewrite Hin1, Hpr. repeat split; lia.
      * destruct Hm as (-> & Hin1 & Hfss). cbn [length skipn firstn existsb].
        assert (Hc1 : exists o1,
          fss w1 !! c = Some o1 /\ fix_errors (opts o1) = FSCK_ERR_ASK
          /\ fs_set_bit BCH_FS_FSCK_FIXED_ERRORS o1
             = (if a then fs_set_bit BCH_FS_FSCK_FIXED_ERRORS o
                else fs_set_bit BCH_FS_FSCK_FIXED_ERRORS o1)
          /\ (a = false -> o1 = o)).
        { destruct a.
          - exists (fs_set_bit BCH_FS_FSCK_FIXED_ERRORS o). rewrite Hfss.
            rewrite lookup_insert_eq, fs_set_bit_idem. repeat split; auto.
            discriminate.
          - exists o. rewrite Hfss. auto. }
        destruct Hc1 as (o1 & Hc1 & Hp1 & Ho1 & Hsame).
        destruct (IH w1 o1 Hc1 Hp1) as [IHok IHblock]. rewrite Hin1 in *.
        split; intros Hlen.
        -- destruct IHok as (H1 & H2 & H3 & H4 & H5); [lia|].
           split; [exact H1|]. split; [exact H2|].
           split; [rewrite H3, Hpr; lia|]. split; [|congruence].
           rewrite H4, Hfss. destruct a; simpl.
           ++ rewrite Ho1, insert_insert_eq.
              destruct (existsb (fun a : bool => a)
                          (firstn (length (List.filter fixable_hit rest)) answers));
                reflexivity.
           ++ rewrite (Hsame eq_refl). reflexivity.
        -- destruct IHblock as (H1 & H2 & H3); [lia|].
           split; [exact H1|]. split; [exact H2|]. rewrite H3, Hpr. lia.
    + destruct Hm as (-> & Hpr & Hin1 & Hfss).
      assert (Hc1 : fss w1 !! c = Some o) by (rewrite Hfss; exact Hc).
      destruct (IH w1 o Hc1 Hp) as [IHok IHblock].
      rewrite Hin1, Hpr, Hfss, Hret in *. split; assumption.
Qed.

(** ** Further properties of the reports *)

(** A format behind a prefix that leaves no conversion open prints as the
    two do, the format on the arguments the prefix leaves. *)
Lemma render_prefix (p f : string) (a : list string) :
  pending_from None p = None ->
  render (p +:+ f) a = render p a +:+ render f (skipn (conversions p) a).
Proof.
  intros Hp. unfold render, conversions. apply render_from_app. left. exact Hp.
Qed.

(** A statement that is guarded by its condition and has the condition as
    its value. *)
Lemma guarded_run (cond : bool) (m : M unit) (w : world) :
  (m w).1 = Val tt ->
  ((if cond then m else M_ret tt);; M_ret cond) w
  = (Val cond, if cond then (m w).2 else w).
Proof.
  intros Hm. destruct cond; [|reflexivity].
  unfold M_bind. destruct (m w) as [v w1]. simpl in Hm. rewrite Hm. reflexivity.
Qed.

Lemma dev_fatal_io_error_run (ca : bch_dev) (fmt : string) (args : list string)
    (w : world) :
  bch2_dev_fatal_io_error ca fmt args w
  = (Val tt,
     set_fatal ({[fs ca]} ∪ fatal w)
       (set_ratelimit (tail (ratelimit w))
          (logged ((if next_verdict w
                    then [Err (Fs (fs ca)) ("fatal IO error on %s for " +:+ fmt)
                            (name ca :: args)]
                    else []) ++ [Fatal_error (fs ca)]) w))).
Proof.
  unfold bch2_dev_fatal_io_error, printk_ratelimited, next_verdict. run_prog.
  destruct w as [m t i r f z]. destruct r as [|[|] r]; simpl;
    unfold logged, set_ratelimit, set_trace, set_fatal; simpl;
    rewrite <- ?app_assoc; reflexivity.
Qed.

Lemma bcache_io_error_run (c : fs_ptr) (b : bio) (fmt : string)
    (args : list string) (w : world) :
  bcache_io_error c b fmt args w
  = (Val (Bio (- EIO)),
     set_ratelimit (tail (ratelimit w))
       (logged (if next_verdict w
                then [Err (Fs c) ("IO error: " +:+ fmt) args]
                else []) w)).
Proof.
  unfold bcache_io_error, __bcache_io_error, printk_ratelimited, next_verdict.
  run_prog.
  destruct w as [m t i r f z]. destruct r as [|[|] r]; simpl;
    unfold logged, set_ratelimit, set_trace; simpl;
    rewrite ?app_nil_r; reflexivity.
Qed.

(** X11.  Every guarded report has its condition as its value and does
    nothing when the condition is false; when it is true the inconsistency
    reports log their line and then register the error with the filesystem,
    which for a device is the one that owns it. *)
Theorem guarded_reports (cond : bool) (c : fs_ptr) (ca : bch_dev)
    (fmt : string) (args : list string) (w : world) :
  bch2_fs_inconsistent_on cond c fmt args w
  = (Val cond,
     if cond then logged [Err (Fs c) fmt args; Inconsistent_error c] w else w)
  /\ bch2_dev_inconsistent_on cond ca fmt args w
     = (Val cond,
        if cond then logged [Err (Dev ca) fmt args; Inconsistent_error (fs ca)] w
        else w)
  /\ bch2_fs_fatal_err_on cond c fmt args w
     = (Val cond, if cond then (bch2_fs_fatal_error c fmt args w).2 else w)
  /\ bch2_dev_fatal_io_err_on cond ca fmt args w
     = (Val cond, if cond then (bch2_dev_fatal_io_error ca fmt args w).2 else w)
  /\ bch2_dev_nonfatal_io_err_on cond ca fmt args w
     = (Val cond,
        if cond then (bch2_dev_nonfatal_io_error ca fmt args w).2 else w)
  /\ bch2_fs_bug_on false c fmt args w = (Val tt, w).
Proof.
  split; [|split; [|split; [|split; [|split]]]].
  - unfold bch2_fs_inconsistent_on. cbv zeta. rewrite guarded_run by reflexivity.
    destruct cond; [|reflexivity]. simpl. unfold logged, set_trace. simpl.
    rewrite <- app_assoc. reflexivity.
  - unfold bch2_dev_inconsistent_on. cbv zeta. rewrite guarded_run by reflexivity.
    destruct cond; [|reflexivity]. simpl. unfold logged, set_trace. simpl.
    rewrite <- app_assoc. reflexivity.
  - unfold bch2_fs_fatal_err_on. cbv zeta. rewrite guarded_run by reflexivity.
    reflexivity.
  - unfold bch2_dev_fatal_io_err_on. cbv zeta.
    rewrite guarded_run by (rewrite dev_fatal_io_error_run; reflexivity).
    reflexivity.
  - unfold bch2_dev_nonfatal_io_err_on. cbv zeta.
    rewrite guarded_run by (rewrite nonfatal_io_error_run; reflexivity).
    reflexivity.
  - reflexivity.
Qed.

(** X12.  The lines of the device IO errors read as they should: the name of
    the device stands where the prefix has its [%s] and the arguments of the
    caller go to the conversions of the caller's format, whatever that format
    is and whatever conversions it has.  The line is in the log when the
    limiter lets it through, and no other line is. *)
Theorem dev_io_error_lines (ca : bch_dev) (fmt : string) (args : list string)
    (w : world) :
  rendered (trace (bch2_dev_nonfatal_io_error ca fmt args w).2)
  = (rendered (trace w)
     ++ (if next_verdict w
         then [(Fs (fs ca),
                "IO error on " +:+ name ca +:+ " for " +:+ render fmt args)]
         else []))%list
  /\ rendered (trace (bch2_dev_fatal_io_error ca fmt args w).2)
     = (rendered (trace w)
        ++ (if next_verdict w
            then [(Fs (fs ca),
                   "fatal IO error on " +:+ name ca +:+ " for "
                   +:+ render fmt args)]
            else []))%list.
Proof.
  split.
  - rewrite nonfatal_io_error_run.
    cbn [snd trace set_ratelimit logged set_trace]. rewrite !rendered_app.
    destruct (next_verdict w); cbn [rendered app]; rewrite ?app_nil_r;
      [|reflexivity].
    rewrite (render_prefix "IO error on %s for " fmt) by reflexivity.
    change (render "IO error on %s for " (name ca :: args))
      with ("IO error on " +:+ (name ca +:+ " for ")).
    change (skipn (conversions "IO error on %s for ") (name ca :: args)) with args.
    rewrite !string_app_assoc. reflexivity.
  - rewrite dev_fatal_io_error_run.
    cbn [snd trace set_ratelimit set_fatal logged set_trace].
    rewrite !rendered_app.
    destruct (next_verdict w); cbn [rendered app]; rewrite ?app_nil_r;
      [|reflexivity].
    rewrite (render_prefix "fatal IO error on %s for " fmt) by reflexivity.
    change (render "fatal IO error on %s for " (name ca :: args))
      with ("fatal IO error on " +:+ (name ca +:+ " for ")).
    change (skipn (conversions "fatal IO error on %s for ") (name ca :: args))
      with args.
    rewrite !string_app_assoc. reflexivity.
Qed.

(** X13.  [bcache_io_error] always leaves [-EIO] in [bi_error], whatever was
    there and whatever the rate limiter decides; its line, "IO error: " and
    the caller's message, is logged only when the limiter lets it through,
    and nothing else of the world changes. *)
Theorem bcache_io_error_marks_bio (c : fs_ptr) (b : bio) (fmt : string)
    (args : list string) (w : world) :
  let r := bcache_io_error c b fmt args w in
  r.1 = Val (Bio (- EIO))
  /\ rendered (trace r.2)
     = (rendered (trace w)
        ++ (if next_verdict w then [(Fs c, "IO error: " +:+ render fmt args)]
            else []))%list
  /\ length (trace r.2)
     = (length (trace w) + (if next_verdict w then 1 else 0))%nat
  /\ fss r.2 = fss w /\ fatal r.2 = fatal w /\ ret r.2 = ret w
  /\ stdin r.2 = stdin w.
Proof.
  cbv zeta. rewrite bcache_io_error_run.
  cbn [fst snd trace set_ratelimit logged set_trace fss fatal ret stdin].
  split; [reflexivity|]. split; [|split; [|repeat split]].
  - rewrite rendered_app. destruct (next_verdict w); [|reflexivity].
    cbn [rendered].
    rewrite (render_prefix "IO error: " fmt) by reflexivity. reflexivity.
  - rewrite length_app. destruct (next_verdict w); reflexivity.
Qed.

End error_h.

(** ** Instances *)

(** C1, as stated, fails on the kernel build: under the policy
    [FSCK_ERR_NO] the kernel logs "bad inode, not fixing", not "bad inode". *)
Lemma policy_branch_kernel_counterexample :
  fsck_err_outcome Kernel 1 true "not fixing" "bad inode" [] (one_fs FSCK_ERR_NO [] [])
  = (Val false,
     logged [Err (Fs 1) "bad inode, %sfixing" ["not "]] (one_fs FSCK_ERR_NO [] []))
  /\ render "bad inode, %sfixing" ["not "] = "bad inode, not fixing"
  /\ ~ policy_branch_spec FSCK_ERR_NO 1 (render "bad inode" [])
        (one_fs FSCK_ERR_NO [] [])
        (fsck_err_outcome Kernel 1 true "not fixing" "bad inode" []
           (one_fs FSCK_ERR_NO [] [])).
Proof.
  assert (Hr : fsck_err_outcome Kernel 1 true "not fixing" "bad inode" []
                 (one_fs FSCK_ERR_NO [] [])
    = (Val false,
       logged [Err (Fs 1) "bad inode, %sfixing" ["not "]] (one_fs FSCK_ERR_NO [] [])))
    by reflexivity.
  split; [exact Hr|]. split; [reflexivity|].
  intros (_ & Hno & _). destruct (Hno eq_refl) as (_ & fmt & args & Hw & Ht).
  rewrite Hr in Hw. simpl in Hw. unfold logged, set_trace in Hw. simpl in Hw.
  injection Hw as Hfmt Hargs. rewrite <- Hfmt, <- Hargs in Ht. discriminate Ht.
Qed.

(** The same policy on the kernel with the policy [FSCK_ERR_ASK]: no prompt,
    the error is fixed without the operator being asked. *)
Example kernel_ask_does_not_prompt :
  fsck_err_outcome Kernel 1 true "not fixing" "bad inode" [] (one_fs FSCK_ERR_ASK [false] [])
  = (Val true,
     logged [Err (Fs 1) "bad inode, %sfixing" [""]] (one_fs FSCK_ERR_ASK [false] [])).
Proof. reflexivity. Qed.

(** C6, as stated, fails when the rate limiter holds the line back: the
    filesystem goes into the fatal state and no message is logged. *)
Lemma dev_fatal_io_error_counterexample :
  bch2_dev_fatal_io_error sda "btree read" [] (one_fs FSCK_ERR_NO [] [false])
  = (Val tt,
     World {[1%N := Bch_fs (Bch_opts FSCK_ERR_NO) 0]} [Fatal_error 1] [] []
       ({[1%N]} ∪ ∅) BCH_FSCK_OK)
  /\ ~ reports_fatal sda (one_fs FSCK_ERR_NO [] [false])
        (bch2_dev_fatal_io_error sda "btree read" [] (one_fs FSCK_ERR_NO [] [false])).
Proof.
  split; [reflexivity|].
  intros (_ & (sc & fmt & args & Ht) & _). simpl in Ht. discriminate Ht.
Qed.

(** [bch2_dev_fatal_error] where the [c] in scope is another filesystem than
    the device's: that one goes into the fatal state, the owner does not. *)
Example bch2_dev_fatal_error_other_fs :
  fatal (bch2_dev_fatal_error 2 sda "journal write" [] (one_fs FSCK_ERR_NO [] [])).2
  = {[2%N]} ∪ ∅
  /\ fs sda ∉ fatal (bch2_dev_fatal_error 2 sda "journal write" []
                       (one_fs FSCK_ERR_NO [] [])).2.
Proof.
  split; [reflexivity|]. simpl.
  rewrite elem_of_union, elem_of_singleton, elem_of_empty.
  intros [H|[]]. discriminate H.
Qed.

(** The sibling [bch2_dev_inconsistent] names the owner as [(ca)->fs]. *)
Example bch2_dev_inconsistent_owner :
  trace (bch2_dev_inconsistent sda "bad bucket" [] (one_fs FSCK_ERR_NO [] [])).2
  = [Err (Dev sda) "bad bucket" []; Inconsistent_error (fs sda)].
Proof. reflexivity. Qed.

(** Three reports of which the limiter lets one through: one line, three
    calls of [bch2_nonfatal_io_error]. *)
Example nonfatal_reports_suppressed :
  let r := report_all sda [("read", []); ("read", []); ("read", [])]
             (one_fs FSCK_ERR_NO [] [true; false; false]) in
  emissions (trace r.2) = 1%nat /\ updates sda (trace r.2) = 3%nat.
Proof. split; reflexivity. Qed.

(** Messages with conversions other than [%s] read as C prints them. *)
Example kernel_line_with_inode_number :
  render ("inode %llu has bad link count" +:+ ", %sfixing") ["4096"; "not "]
  = "inode 4096 has bad link count, not fixing"
  /\ render ("inode %llu has bad link count" +:+ ", %sfixing") ["4096"; ""]
     = "inode 4096 has bad link count, fixing"
  /\ conversions "inode %llu has bad link count" = 1%nat
  /\ render "%u%% of %-8s used, %*d left" ["93"; "sda"; "6"; "1024"]
     = "93% of sda used, 1024 left".
Proof. repeat split. Qed.

Example io_error_line_with_sector :
  rendered (trace (bch2_dev_nonfatal_io_error sda "sector %llu" ["42"]
                     (one_fs FSCK_ERR_NO [] [])).2)
  = [(Fs 1%N, "IO error on sda for sector 42")].
Proof. reflexivity. Qed.

(** C1 at work: an inode number in the message, the policy ask, the answer
    yes.  The tools prompt; the kernel logs "inode 4096 has bad link count,
    fixing" and asks nobody. *)
Lemma policy_branch_witness :
  fss (one_fs FSCK_ERR_ASK [true] []) !! 1%N
  = Some (Bch_fs (Bch_opts FSCK_ERR_ASK) 0)
  /\ conversions "inode %llu has bad link count" = length ["4096"]
  /\ policy_branch_spec FSCK_ERR_ASK 1
       (render "inode %llu has bad link count" ["4096"])
       (one_fs FSCK_ERR_ASK [true] [])
       (fsck_err_outcome Userspace 1 true "not fixing"
          "inode %llu has bad link count" ["4096"] (one_fs FSCK_ERR_ASK [true] []))
  /\ fsck_err_outcome Kernel 1 true "not fixing"
       "inode %llu has bad link count" ["4096"] (one_fs FSCK_ERR_ASK [true] [])
     = (Val true,
        logged [Err (Fs 1) "inode %llu has bad link count, %sfixing" ["4096"; ""]]
          (one_fs FSCK_ERR_ASK [true] []))
  /\ kernel_policy_branch FSCK_ERR_ASK 1
       (render "inode %llu has bad link count" ["4096"])
       (one_fs FSCK_ERR_ASK [true] [])
       (fsck_err_outcome Kernel 1 true "not fixing"
          "inode %llu has bad link count" ["4096"] (one_fs FSCK_ERR_ASK [true] [])).
Proof.
  assert (Hc : fss (one_fs FSCK_ERR_ASK [true] []) !! 1%N
               = Some (Bch_fs (Bch_opts FSCK_ERR_ASK) 0)) by reflexivity.
  assert (Ha : conversions "inode %llu has bad link count" = length ["4096"])
    by reflexivity.
  destruct (policy_branch 1 _ "not fixing" "inode %llu has bad link count"
              ["4096"] _ Hc) as (Hu & Hk & Ht).
  split; [exact Hc|]. split; [exact Ha|]. split; [exact Hu|].
  split; [exact Hk | exact (Ht Ha)].
Defined.

(** C2 at work: a mandatory fix under the policy no, in the tools; the check
    that would follow never logs its line, and the function returns
    [BCH_FSCK_ERRORS_NOT_FIXED]. *)
Lemma not_fixed_not_ignorable_aborts_witness :
  fss (one_fs FSCK_ERR_NO [] []) !! 1%N = Some (Bch_fs (Bch_opts FSCK_ERR_NO) 0)
  /\ fsck_err_label
       (x <- mustfix_fsck_err_on fixed_errors_bit true Userspace 1 "bad inode" [];
        bch_err (Fs 1) "next check" [])
       (one_fs FSCK_ERR_NO [] [])
     = (Val BCH_FSCK_ERRORS_NOT_FIXED,
        World {[1%N := Bch_fs (Bch_opts FSCK_ERR_NO) 0]}
          [Err (Fs 1) "bad inode" [];
           Err (Fs 1) "Unable to continue, halting" []]
          [] [] ∅ BCH_FSCK_ERRORS_NOT_FIXED).
Proof.
  assert (Hc : fss (one_fs FSCK_ERR_NO [] []) !! 1%N
               = Some (Bch_fs (Bch_opts FSCK_ERR_NO) 0)) by reflexivity.
  split; [exact Hc|].
  destruct (not_fixed_not_ignorable_aborts fixed_errors_bit Userspace 1
              "bad inode" [] (one_fs FSCK_ERR_NO [] []) unit
              (fun _ => bch_err (Fs 1) "next check" [])) as [_ Hm].
  destruct (Hm _ Hc eq_refl) as (w1 & Ho & _ & _ & Hl).
  injection Ho as Hw. rewrite <- Hw in Hl. exact Hl.
Defined.

(** C4 at work: the four modes under the policy no, in the kernel. *)
Lemma modes_supply_table_witness :
  fss (one_fs FSCK_ERR_NO [] []) !! 1%N = Some (Bch_fs (Bch_opts FSCK_ERR_NO) 0)
  /\ (unfixable_fsck_err_on fixed_errors_bit true Kernel 1 "bad inode" []
        (one_fs FSCK_ERR_NO [] [])).1 = Val false
  /\ (need_fsck_err_on fixed_errors_bit true Kernel 1 "bad inode" []
        (one_fs FSCK_ERR_NO [] [])).1 = Val false
  /\ (mustfix_fsck_err_on fixed_errors_bit true Kernel 1 "bad inode" []
        (one_fs FSCK_ERR_NO [] [])).1 = Goto_fsck_err
  /\ (fsck_err_on fixed_errors_bit true Kernel 1 "bad inode" []
        (one_fs FSCK_ERR_NO [] [])).1 = Val false.
Proof.
  assert (Hc : fss (one_fs FSCK_ERR_NO [] []) !! 1%N
               = Some (Bch_fs (Bch_opts FSCK_ERR_NO) 0)) by reflexivity.
  split; [exact Hc|].
  destruct (modes_supply_table fixed_errors_bit true Kernel 1 "bad inode" [])
    as (_ & _ & _ & _ & _ & _ & Hb).
  split; [exact (Hb Unfixable_but_tolerable false _ _ Hc eq_refl)|].
  split; [exact (Hb Deferred_to_next_run false _ _ Hc eq_refl)|].
  split; [exact (Hb Mandatory_fix false _ _ Hc eq_refl)|].
  exact (Hb Best_effort_fix false _ _ Hc eq_refl).
Defined.

(** C5 at work: a fix under the policy yes sets bit 7 of the flags. *)
Lemma fixed_errors_flag_iff_fixed_witness :
  (fsck_err_outcome Userspace 1 true "not fixing" "bad inode" []
     (one_fs FSCK_ERR_YES [] [])).1 = Val true
  /\ exists o0,
       fss (one_fs FSCK_ERR_YES [] []) !! 1%N = Some o0
       /\ fss (__fsck_err fixed_errors_bit Userspace 1 true true "not fixing"
                 "bad inode" [] (one_fs FSCK_ERR_YES [] [])).2
          = <[1%N := fs_set_bit fixed_errors_bit o0]> (fss (one_fs FSCK_ERR_YES [] []))
       /\ test_bit fixed_errors_bit (fs_set_bit fixed_errors_bit o0) = true.
Proof.
  assert (Ho : (fsck_err_outcome Userspace 1 true "not fixing" "bad inode" []
                  (one_fs FSCK_ERR_YES [] [])).1 = Val true) by reflexivity.
  split; [exact Ho|].
  destruct (fixed_errors_flag_iff_fixed fixed_errors_bit Userspace 1 true true
              "not fixing" "bad inode" [] (one_fs FSCK_ERR_YES [] []))
    as (Hfixed & _ & _).
  exact (proj2 (Hfixed Ho)).
Defined.

(** C6 at work: a fatal IO error the limiter lets through. *)
Lemma dev_fatal_reports_witness :
  next_verdict (one_fs FSCK_ERR_NO [] [true]) = true
  /\ reports_fatal sda (one_fs FSCK_ERR_NO [] [true])
       (bch2_dev_fatal_io_error sda "btree read" [] (one_fs FSCK_ERR_NO [] [true])).
Proof.
  split; [reflexivity|].
  destruct (dev_fatal_reports sda "btree read" [] (one_fs FSCK_ERR_NO [] [true]))
    as ((_ & _ & _ & Hr) & _).
  exact (Hr eq_refl).
Defined.

(** C10 at work: the value [true] of a plain negotiation under the policy yes
    is its outcome. *)
Lemma fsck_err_value_is_outcome_witness :
  (__fsck_err fixed_errors_bit Kernel 1 true true "not fixing" "bad inode" []
     (one_fs FSCK_ERR_YES [] [])).1 = Val true
  /\ (fsck_err_outcome Kernel 1 true "not fixing" "bad inode" []
        (one_fs FSCK_ERR_YES [] [])).1 = Val true.
Proof.
  assert (Hr : (__fsck_err fixed_errors_bit Kernel 1 true true "not fixing"
                  "bad inode" [] (one_fs FSCK_ERR_YES [] [])).1 = Val true)
    by reflexivity.
  split; [exact Hr|].
  destruct (fsck_err_value_is_outcome fixed_errors_bit Kernel 1 true true
              "not fixing" "bad inode" [] (one_fs FSCK_ERR_YES [] []))
    as (_ & Hb & _).
  exact (Hb true Hr).
Defined.

(** X1 at work: a fix in the tools under the policy yes. *)
Lemma fsck_err_sets_one_bit_witness :
  fss (one_fs FSCK_ERR_YES [] []) !! 1%N = Some (Bch_fs (Bch_opts FSCK_ERR_YES) 0)
  /\ exists o',
       fss (__fsck_err fixed_errors_bit Userspace 1 true true "not fixing"
              "bad inode" [] (one_fs FSCK_ERR_YES [] [])).2 !! 1%N = Some o'
       /\ opts o' = Bch_opts FSCK_ERR_YES
       /\ test_bit fixed_errors_bit o' = true
       /\ test_bit 3 o' = false.
Proof.
  assert (Hc : fss (one_fs FSCK_ERR_YES [] []) !! 1%N
               = Some (Bch_fs (Bch_opts FSCK_ERR_YES) 0)) by reflexivity.
  split; [exact Hc|].
  destruct (fsck_err_sets_one_bit fixed_errors_bit Userspace 1 true true
              "not fixing" "bad inode" [] _ _ Hc) as (o' & Hc' & Hopts & Hbits & _).
  exists o'. split; [exact Hc'|]. split; [exact Hopts|].
  split; [exact (Hbits fixed_errors_bit) | exact (Hbits 3%N)].
Defined.

(** X5 at work: the policy 3 is none of the enumerators. *)
Lemma userspace_unknown_policy_is_silent_witness :
  fss (one_fs 3 [] []) !! 1%N = Some (Bch_fs (Bch_opts 3) 0)
  /\ __fsck_err fixed_errors_bit Userspace 1 true true "not fixing" "bad inode" []
       (one_fs 3 [] [])
     = (Val false, one_fs 3 [] []).
Proof.
  assert (Hc : fss (one_fs 3 [] []) !! 1%N = Some (Bch_fs (Bch_opts 3) 0))
    by reflexivity.
  split; [exact Hc|].
  assert (Hno : fix_errors (opts (Bch_fs (Bch_opts 3) 0)) <> FSCK_ERR_NO)
    by (unfold FSCK_ERR_NO; simpl; lia).
  assert (Hyes : fix_errors (opts (Bch_fs (Bch_opts 3) 0)) <> FSCK_ERR_YES)
    by (unfold FSCK_ERR_YES; simpl; lia).
  assert (Hask : fix_errors (opts (Bch_fs (Bch_opts 3) 0)) <> FSCK_ERR_ASK)
    by (unfold FSCK_ERR_ASK; simpl; lia).
  exact (proj1 (proj2 (userspace_unknown_policy_is_silent fixed_errors_bit 1 _
                         "not fixing" "bad inode" [] _ Hc Hno Hyes Hask))).
Defined.

(** X7 at work: the four checks under the policy yes, in the kernel. *)
Lemma run_checks_under_yes_witness :
  fss (one_fs FSCK_ERR_YES [] []) !! 1%N = Some (Bch_fs (Bch_opts FSCK_ERR_YES) 0)
  /\ (run_checks fixed_errors_bit Kernel 1 sample_checks
        (one_fs FSCK_ERR_YES [] [])).1 = Val tt
  /\ emissions (trace (run_checks fixed_errors_bit Kernel 1 sample_checks
                         (one_fs FSCK_ERR_YES [] [])).2) = 4%nat.
Proof.
  assert (Hc : fss (one_fs FSCK_ERR_YES [] []) !! 1%N
               = Some (Bch_fs (Bch_opts FSCK_ERR_YES) 0)) by reflexivity.
  split; [exact Hc|].
  destruct (run_checks_under_yes fixed_errors_bit Kernel 1 _ sample_checks _
              Hc eq_refl) as (H1 & _ & _ & _ & H5 & _).
  split; [exact H1 | exact H5].
Defined.

(** X8 at work: the four checks under the policy no, in the tools; the
    fourth one is never reached. *)
Lemma run_checks_under_no_witness :
  fss (one_fs FSCK_ERR_NO [] []) !! 1%N = Some (Bch_fs (Bch_opts FSCK_ERR_NO) 0)
  /\ (run_checks fixed_errors_bit Userspace 1 sample_checks
        (one_fs FSCK_ERR_NO [] [])).1 = Goto_fsck_err
  /\ emissions (trace (run_checks fixed_errors_bit Userspace 1 sample_checks
                         (one_fs FSCK_ERR_NO [] [])).2) = 4%nat
  /\ fss (run_checks fixed_errors_bit Userspace 1 sample_checks
            (one_fs FSCK_ERR_NO [] [])).2 = fss (one_fs FSCK_ERR_NO [] []).
Proof.
  assert (Hc : fss (one_fs FSCK_ERR_NO [] []) !! 1%N
               = Some (Bch_fs (Bch_opts FSCK_ERR_NO) 0)) by reflexivity.
  split; [exact Hc|].
  destruct (run_checks_under_no fixed_errors_bit Userspace 1 _ sample_checks _
              Hc eq_refl) as (H1 & _ & H3 & _ & _ & H6).
  split; [exact H1|]. split; [exact H6 | exact H3].
Defined.

(** X9 at work: the function around the four checks under the policy no. *)
Lemma fsck_function_result_witness :
  ret (one_fs FSCK_ERR_NO [] []) = BCH_FSCK_OK
  /\ (fsck_err_label (run_checks fixed_errors_bit Userspace 1 sample_checks)
        (one_fs FSCK_ERR_NO [] [])).1 = Val BCH_FSCK_ERRORS_NOT_FIXED.
Proof.
  assert (Hret : ret (one_fs FSCK_ERR_NO [] []) = BCH_FSCK_OK) by reflexivity.
  split; [exact Hret|].
  destruct (fsck_function_result fixed_errors_bit Userspace 1 sample_checks _ Hret)
    as (_ & Hjump & _).
  apply Hjump. reflexivity.
Defined.

(** X10 at work: two prompts, answered yes and no, with a third answer that
    stays unread. *)
Lemma run_checks_under_ask_witness :
  fss (one_fs FSCK_ERR_ASK [true; false; true] []) !! 1%N
  = Some (Bch_fs (Bch_opts FSCK_ERR_ASK) 0)
  /\ forallb (fun k => mode_ignorable (chk_mode k)) ignorable_checks = true
  /\ (run_checks fixed_errors_bit Userspace 1 ignorable_checks
        (one_fs FSCK_ERR_ASK [true; false; true] [])).1 = Val tt
  /\ stdin (run_checks fixed_errors_bit Userspace 1 ignorable_checks
              (one_fs FSCK_ERR_ASK [true; false; true] [])).2 = [true]
  /\ prompts_count (trace (run_checks fixed_errors_bit Userspace 1 ignorable_checks
                              (one_fs FSCK_ERR_ASK [true; false; true] [])).2)
     = 2%nat.
Proof.
  assert (Hc : fss (one_fs FSCK_ERR_ASK [true; false; true] []) !! 1%N
               = Some (Bch_fs (Bch_opts FSCK_ERR_ASK) 0)) by reflexivity.
  assert (Hall : forallb (fun k => mode_ignorable (chk_mode k)) ignorable_checks
                 = true) by reflexivity.
  split; [exact Hc|]. split; [exact Hall|].
  destruct (run_checks_under_ask fixed_errors_bit 1 _ ignorable_checks _
              Hc eq_refl Hall) as [Hok _].
  assert (Hlen : (length (List.filter fixable_hit ignorable_checks)
                  <= length (stdin (one_fs FSCK_ERR_ASK [true; false; true] [])))%nat)
    by (simpl; lia).
  destruct (Hok Hlen) as (H1 & H2 & H3 & _).
  split; [exact H1|]. split; [exact H2 | exact H3].
Defined.
